(** * electrode-native: identity model, Cauldron git adapter, plugin paths

    A shallow embedding of the parts of electrode-native that carry the
    dependency identity model ([Dependency], src/unnamed/part_000), the
    git synchronisation of the Cauldron working copy ([BaseGit],
    src/ern-cauldron-api/src/base-git.js) and the plugin download path
    ([getDownloadedPluginPath], src/ern-core/src/utils.ts), together with
    the native dependency version resolver described in the specification.

    JavaScript strings are modelled as [string]: sequences of code units in
    the range 0..255.  [undefined] in an optional field is [None]. *)

From stdpp Require Import base option list strings gmap.
From Stdlib Require Import Ascii String Sorted.

Local Open Scope string_scope.

(** ** JavaScript values the sources rely on *)

Module Js.

(** A call returns a value or throws; for an async function, the promise
    settles with a value or rejects with an error. *)
Inductive outcome (A : Type) : Type :=
  | Returned (a : A)
  | Thrown (e : string).
Arguments Returned {A} a.
Arguments Thrown {A} e.

(** Truthiness of a string-or-undefined value: [undefined] and the empty
    string are falsy. *)
Definition truthy (v : option string) : bool :=
  match v with
  | Some EmptyString => false
  | Some _ => true
  | None => false
  end.

(** The text of a string-or-undefined value inside a template literal,
    and where a string is expected of it. *)
Definition text (v : option string) : string :=
  match v with Some s => s | None => "undefined" end.

(** [a === b] on values that are strings or [undefined]. *)
Definition strict_eq (a b : option string) : bool :=
  match a, b with
  | Some x, Some y => String.eqb x y
  | None, None => true
  | _, _ => false
  end.

End Js.

(** ** JavaScript regular expressions (the fragment the sources use) *)

Module RegExp.

(** Line terminators: [.] matches every code unit but these.  Of
    ECMAScript's four line terminators (LF, CR, U+2028, U+2029) the first
    two exist in the 8-bit code unit range modelled here. *)
Definition is_line_terminator (c : ascii) : bool :=
  Ascii.eqb c "010"%char || Ascii.eqb c "013"%char.

Definition dot (c : ascii) : bool := negb (is_line_terminator c).

(** A pattern is a sequence of items: a literal character, [.], and the
    greedy quantified dot-star and dot-plus, either wrapped in a capturing
    group ([capture = true]) or bare. *)
Inductive item : Type :=
  | Lit (c : ascii)
  | Any
  | Star (capture : bool)
  | Plus (capture : bool).

Definition pattern := list item.

(** Greedy iteration of [.] followed by the continuation [k] (the rest of
    the pattern): the longest run is tried first and one character is
    given back at a time until [k] succeeds.  The result is the text the
    iteration consumed and the captures of the continuation. *)
Section Greedy.
Variable k : string -> option (list string).

Fixpoint star (s : string) : option (string * list string) :=
  let longer :=
    match s with
    | String c s' =>
        if dot c then
          match star s' with
          | Some (t, gs) => Some (String c t, gs)
          | None => None
          end
        else None
    | EmptyString => None
    end in
  match longer with
  | Some r => Some r
  | None => match k s with Some gs => Some (EmptyString, gs) | None => None end
  end.

Definition plus (s : string) : option (string * list string) :=
  match s with
  | String c s' =>
      if dot c then
        match star s' with
        | Some (t, gs) => Some (String c t, gs)
        | None => None
        end
      else None
  | EmptyString => None
  end.
End Greedy.

Definition group (capture : bool) (r : option (string * list string))
  : option (list string) :=
  match r with
  | Some (t, gs) => Some (if capture then t :: gs else gs)
  | None => None
  end.

(** Match the pattern at the start of [s]; on success the texts of the
    capturing groups, in the order of their opening parentheses. *)
Fixpoint match_here (r : pattern) (s : string) {struct r} : option (list string) :=
  match r with
  | [] => Some []
  | Lit c :: r' =>
      match s with
      | String x s' => if Ascii.eqb x c then match_here r' s' else None
      | EmptyString => None
      end
  | Any :: r' =>
      match s with
      | String x s' => if dot x then match_here r' s' else None
      | EmptyString => None
      end
  | Star cap :: r' => group cap (star (match_here r') s)
  | Plus cap :: r' => group cap (plus (match_here r') s)
  end.

(** [RegExp.prototype.exec] for a pattern without flags: the leftmost
    start position at which the pattern matches.  [Some gs] stands for the
    match array, [gs] being its elements from index 1 on; [None] for
    [null]. *)
Fixpoint exec (r : pattern) (s : string) : option (list string) :=
  match match_here r s with
  | Some gs => Some gs
  | None =>
      match s with
      | String _ s' => exec r s'
      | EmptyString => None
      end
  end.

(** [RegExp.prototype.test]. *)
Definition test (r : pattern) (s : string) : bool :=
  match exec r s with Some _ => true | None => false end.

(** [m[i]] for the result [m] of [exec], [i >= 1].  The sources index a
    result only after [test] succeeded on the same text, and every group
    of their patterns takes part in every match: the element is then a
    string.  Elsewhere the model gives the empty string. *)
Definition at_index (m : option (list string)) (i : nat) : string :=
  match m with
  | Some gs => nth (i - 1) gs EmptyString
  | None => EmptyString
  end.

End RegExp.

(** ** Dependency (src/unnamed/part_000) *)

Module Dependency.
Import Js RegExp.

(** The source pattern: at-sign, group(dot-plus), slash, group(dot-star),
    at-sign, group(dot-star). *)
Definition SCOPE_NAME_VERSION_RE : pattern :=
  [Lit "@"; Plus true; Lit "/"; Star true; Lit "@"; Star true].

(** The source pattern: at-sign, group(dot-plus), slash, group(dot-plus). *)
Definition SCOPE_NAME_NO_VERSION_RE : pattern :=
  [Lit "@"; Plus true; Lit "/"; Plus true].

(** The source pattern: group(dot-star), at-sign, group(dot-star). *)
Definition NAME_VERSION_RE : pattern :=
  [Star true; Lit "@"; Star true].

Record Dependency : Type := mkDependency {
  name : string;
  scope : option string;
  version : option string
}.

(** [new Dependency(name)] and [new Dependency(name, { scope, version })]:
    an option that the object literal does not carry is [undefined]. *)
Definition new (name : string) (scope version : option string) : Dependency :=
  mkDependency name scope version.

Definition fromString (str : string) : Dependency :=
  if test SCOPE_NAME_VERSION_RE str then
    let scopeNameVersion := exec SCOPE_NAME_VERSION_RE str in
    new (at_index scopeNameVersion 2)
        (Some (at_index scopeNameVersion 1))
        (Some (at_index scopeNameVersion 3))
  else if test NAME_VERSION_RE str then
    let nameVersion := exec NAME_VERSION_RE str in
    new (at_index nameVersion 1) None (Some (at_index nameVersion 2))
  else if test SCOPE_NAME_NO_VERSION_RE str then
    let scopeName := exec SCOPE_NAME_NO_VERSION_RE str in
    new (at_index scopeName 2) None (Some (at_index scopeName 1))
  else
    new str None None.

Definition same (depA depB : Dependency) (ignoreVersion : bool) : bool :=
  String.eqb (name depA) (name depB)
  && strict_eq (scope depA) (scope depB)
  && (ignoreVersion || strict_eq (version depA) (version depB)).

Definition withoutVersion (this : Dependency) : Dependency :=
  new (name this) (scope this) None.

Definition toString (this : Dependency) : string :=
  (if truthy (scope this) then "@" +:+ text (scope this) +:+ "/" else "")
  +:+ name this
  +:+ (if truthy (version this) then "@" +:+ text (version this) else "").

End Dependency.

(** *** The dependency grammar

    The tokens of the canonical form: a scope, a name and a version are
    non-empty, stay on one line and hold neither of the two separators. *)

Module Grammar.
Import RegExp Dependency.

Fixpoint has (c : ascii) (s : string) : bool :=
  match s with
  | EmptyString => false
  | String x s' => Ascii.eqb x c || has c s'
  end.

Fixpoint one_line (s : string) : bool :=
  match s with
  | EmptyString => true
  | String x s' => dot x && one_line s'
  end.

Definition token (s : string) : bool :=
  negb (String.eqb s "") && one_line s && negb (has "@" s) && negb (has "/" s).

(** Every field that is present is a token. *)
Definition well_formed (d : Dependency) : bool :=
  token (name d)
  && from_option token true (scope d)
  && from_option token true (version d).

(** A scope without a version. *)
Definition scoped_unversioned (d : Dependency) : bool :=
  match scope d, version d with
  | Some _, None => true
  | _, _ => false
  end.

End Grammar.

(** ** The git working copy and its remote

    [BaseGit] drives git through simple-git.  The model keeps the working
    directory, the repository inside it, the repositories reachable by url,
    and the list of the git commands issued, in the order of the calls. *)

Module Git.
Import Js.

Abbreviation files := (gmap string string).

(** A commit is its message and its tree; a history lists the commits of a
    branch, newest first. *)
Definition commit : Type := string * files.
Definition history := list commit.

Definition tree_of (h : history) : files :=
  match h with
  | (_, t) :: _ => t
  | [] => ∅
  end.

Record repo : Type := mkRepo {
  remotes : gmap string string;      (* remote name -> url *)
  heads : gmap string history;       (* refs/heads/<branch> *)
  tags : gmap string history;        (* refs/tags/<tag> *)
  HEAD : string;                     (* the branch HEAD points to *)
  remote_refs : gmap string history; (* refs/remotes/<remote>/<branch> *)
  index : files                      (* the staged tree *)
}.

Inductive call : Type :=
  | Init
  | AddRemote (name url : string)
  | Raw (args : list string)
  | Fetch (remote branch : string)
  | Reset (args : list string)
  | Add (path : string)
  | Commit (message : string)
  | Push (remote branch : string).

(** What a url leads to: a repository with its branches, or a failure
    with the error git reports for it. *)
Inductive remote : Type :=
  | Reachable (branches : gmap string history)
  | Unreachable (error : string).

Record world : Type := mkWorld {
  worktree : files;            (* files of the directory, .git apart *)
  dotgit : option repo;        (* the .git directory, when it exists *)
  server : gmap string remote; (* url -> what git finds there *)
  calls : list call            (* git commands issued so far *)
}.

(** An async call on the world: the promise settles with a value or
    rejects with an error; the effects made before a rejection stay. *)
Definition M (A : Type) : Type := world -> outcome A * world.

Definition ret {A} (a : A) : M A := fun w => (Returned a, w).
Definition throw {A} (e : string) : M A := fun w => (Thrown e, w).
Definition bind {A B} (m : M A) (k : A -> M B) : M B :=
  fun w =>
    match m w with
    | (Returned a, w') => k a w'
    | (Thrown e, w') => (Thrown e, w')
    end.
Definition try_catch {A} (m : M A) (handler : string -> M A) : M A :=
  fun w =>
    match m w with
    | (Returned a, w') => (Returned a, w')
    | (Thrown e, w') => handler e w'
    end.

#[global] Instance M_ret : MRet M := @ret.
#[global] Instance M_bind : MBind M := fun A B k m => bind m k.

(** Updates of the world and of the repository. *)
Definition log (c : call) (w : world) : world :=
  mkWorld (worktree w) (dotgit w) (server w) (calls w ++ [c]).
Definition with_repo (r : repo) (w : world) : world :=
  mkWorld (worktree w) (Some r) (server w) (calls w).
Definition with_worktree (t : files) (w : world) : world :=
  mkWorld t (dotgit w) (server w) (calls w).
Definition with_server (s : gmap string remote) (w : world) : world :=
  mkWorld (worktree w) (dotgit w) s (calls w).

Definition set_remote (name url : string) (r : repo) : repo :=
  mkRepo (<[name := url]> (remotes r)) (heads r) (tags r) (HEAD r) (remote_refs r) (index r).
Definition set_remote_ref (ref : string) (h : history) (r : repo) : repo :=
  mkRepo (remotes r) (heads r) (tags r) (HEAD r) (<[ref := h]> (remote_refs r)) (index r).
Definition set_index (idx : files) (r : repo) : repo :=
  mkRepo (remotes r) (heads r) (tags r) (HEAD r) (remote_refs r) idx.
(** Moves the branch HEAD points to. *)
Definition set_head (h : history) (r : repo) : repo :=
  mkRepo (remotes r) (<[HEAD r := h]> (heads r)) (tags r) (HEAD r) (remote_refs r) (index r).

Definition record (c : call) : M unit := fun w => (Returned tt, log c w).
Definition set_repo (r : repo) : M unit := fun w => (Returned tt, with_repo r w).
Definition set_worktree (t : files) : M unit := fun w => (Returned tt, with_worktree t w).
Definition set_server (s : gmap string remote) : M unit :=
  fun w => (Returned tt, with_server s w).

Definition get_repo : M repo :=
  fun w =>
    match dotgit w with
    | Some r => (Returned r, w)
    | None => (Thrown "fatal: not a git repository (or any of the parent directories): .git", w)
    end.

Definition get_world : M world := fun w => (Returned w, w).

Definition empty_repo : repo := mkRepo ∅ ∅ ∅ "master" ∅ ∅.

(** [git.initAsync()], git init: creates .git with HEAD on the unborn branch master; an
    existing repository is left as it is. *)
Definition initAsync : M unit :=
  _ ← record Init;
  w ← get_world;
  match dotgit w with
  | Some _ => ret tt
  | None => set_repo empty_repo
  end.

(** [git.addRemoteAsync(name, url)], git remote add. *)
Definition addRemoteAsync (name url : string) : M unit :=
  _ ← record (AddRemote name url);
  r ← get_repo;
  match remotes r !! name with
  | Some _ => throw ("fatal: remote " +:+ name +:+ " already exists.")
  | None => set_repo (set_remote name url r)
  end.

(** [git.rawAsync(args)]; of the raw commands the sources issue
    remote set-url only. *)
Definition rawAsync (args : list string) : M unit :=
  _ ← record (Raw args);
  r ← get_repo;
  match args with
  | ["remote"; "set-url"; name; url] =>
      match remotes r !! name with
      | Some _ => set_repo (set_remote name url r)
      | None => throw ("fatal: No such remote '" +:+ name +:+ "'")
      end
  | _ => throw "git: unsupported raw command"
  end.

(** What git finds at a url; nothing answers at a url the world does not
    know. *)
Definition lookup_remote (w : world) (url : string) : remote :=
  default (Unreachable "fatal: Could not read from remote repository.")
          (server w !! url).

Definition remote_ref (remote branch : string) : string :=
  remote +:+ "/" +:+ branch.

(** [git.fetchAsync(remote, branch)], git fetch: brings the
    remote-tracking ref of the branch up to the state of the branch on the
    remote.  The error for a branch the remote does not have is worded as
    git words it, in lower case: fatal: couldn't find remote ref. *)
Definition fetchAsync (remote branch : string) : M unit :=
  _ ← record (Fetch remote branch);
  r ← get_repo;
  w ← get_world;
  match remotes r !! remote with
  | None => throw ("fatal: '" +:+ remote +:+ "' does not appear to be a git repository")
  | Some url =>
      match lookup_remote w url with
      | Unreachable e => throw e
      | Reachable branches =>
          match branches !! branch with
          | None => throw ("fatal: couldn't find remote ref " +:+ branch)
          | Some h => set_repo (set_remote_ref (remote_ref remote branch) h r)
          end
      end
  end.

(** The files after a hard reset from index [idx] to tree [t]: the paths of
    [t] hold the content [t] gives them, the other paths the old index
    tracked are removed, and untracked files stay. *)
Definition hard_reset_files (idx t wt : files) : files :=
  t ∪ filter (fun pc => idx !! pc.1 = None) wt.

(** What a short name stands for in the repository itself: a tag, and
    then a local branch. *)
Definition local_ref (r : repo) (ref : string) : option history :=
  match tags r !! ref with
  | Some h => Some h
  | None => heads r !! ref
  end.

(** The ref a short name resolves to, by the order of git: refs/tags,
    refs/heads, and only then refs/remotes.  A tag or a local branch that
    bears the name of a remote-tracking ref comes before it. *)
Definition resolve_ref (r : repo) (ref : string) : option history :=
  match local_ref r ref with
  | Some h => Some h
  | None => remote_refs r !! ref
  end.

(** [git.resetAsync(args)]; the sources issue reset --hard with a ref
    only. *)
Definition resetAsync (args : list string) : M unit :=
  _ ← record (Reset args);
  r ← get_repo;
  w ← get_world;
  match args with
  | ["--hard"; ref] =>
      match resolve_ref r ref with
      | None =>
          throw ("fatal: ambiguous argument '" +:+ ref
                 +:+ "': unknown revision or path not in the working tree.")
      | Some h =>
          _ ← set_repo (set_index (tree_of h) (set_head h r));
          set_worktree (hard_reset_files (index r) (tree_of h) (worktree w))
      end
  | _ => throw "git: unsupported reset"
  end.

(** [git.addAsync(path)], git add. *)
Definition addAsync (path : string) : M unit :=
  _ ← record (Add path);
  r ← get_repo;
  w ← get_world;
  match worktree w !! path with
  | None => throw ("fatal: pathspec '" +:+ path +:+ "' did not match any files")
  | Some content => set_repo (set_index (<[path := content]> (index r)) r)
  end.

Definition head_history (r : repo) : history :=
  default [] (heads r !! HEAD r).

(** [git.commitAsync(message)], git commit: a new commit of the index on the current
    branch.  With nothing staged git reports so on its standard output and
    no commit is made; simple-git rejects only when git wrote to its
    standard error, so the call still settles. *)
Definition commitAsync (message : string) : M unit :=
  _ ← record (Commit message);
  r ← get_repo;
  if decide (index r = tree_of (head_history r)) then ret tt
  else set_repo (set_head ((message, index r) :: head_history r) r).

(** [git.pushAsync(remote, branch)], git push: fast-forwards the branch of the remote to
    the local branch of the same name, and the remote-tracking ref with
    it. *)
Definition pushAsync (remote branch : string) : M unit :=
  _ ← record (Push remote branch);
  r ← get_repo;
  w ← get_world;
  match remotes r !! remote with
  | None => throw ("fatal: '" +:+ remote +:+ "' does not appear to be a git repository")
  | Some url =>
      match heads r !! branch with
      | None => throw ("error: src refspec " +:+ branch +:+ " does not match any")
      | Some h =>
          match lookup_remote w url with
          | Unreachable e => throw e
          | Reachable branches =>
              if decide (default [] (branches !! branch) `suffix_of` h) then
                _ ← set_server (<[url := Reachable (<[branch := h]> branches)]> (server w));
                set_repo (set_remote_ref (remote_ref remote branch) h r)
              else throw "error: failed to push some refs (non-fast-forward)"
          end
      end
  end.

(** [fs.existsSync] on a file of the working directory, and on .git. *)
Definition existsSync (path : string) : M bool :=
  fun w =>
    (Returned (if decide (path = ".git") then bool_decide (is_Some (dotgit w))
               else bool_decide (is_Some (worktree w !! path))), w).

End Git.

(** ** BaseGit (src/ern-cauldron-api/src/base-git.js) *)

Module BaseGit.
Import Js RegExp Git.

Definition GIT_REMOTE_NAME : string := "upstream".
Definition README : string := "### Cauldron Repository".

(** [this.path] is the working directory of the [world]; [this.git] is
    simple-git bound to it. *)
Record BaseGit : Type := mkBaseGit {
  repository : string;
  branch : string
}.

(** [new BaseGit(ernPath, repository, branch = 'master')] *)
Definition constructor (repository : string) (branch : option string) : BaseGit :=
  mkBaseGit repository (default "master" branch).

(** Modelled from the spec: [writeFile] of ./fs-util is not among the
    sources; the bootstrap is to "write a placeholder marker file", so the
    call leaves a file with the given content at the given path. *)
Definition writeFile (path content : string) : M unit :=
  w ← get_world;
  set_worktree (<[path := content]> (worktree w)).

(** A pattern made of literal characters only. *)
Definition literal (s : string) : pattern :=
  map Lit (list_ascii_of_string s).

Definition NO_REMOTE_REF_RE : pattern :=
  literal "Couldn't find remote ref master".

(** [e + ''] for the error [e] a rejected git call carries. *)
Definition error_text (e : string) : string := "Error: " +:+ e.

Definition push (this : BaseGit) : M unit :=
  Git.pushAsync GIT_REMOTE_NAME (branch this).

Definition _doInitialCommit (this : BaseGit) : M unit :=
  present ← existsSync "README.md";
  if negb present then
    _ ← writeFile "README.md" README;
    _ ← addAsync "README.md";
    _ ← commitAsync "First Commit!";
    push this
  else ret tt.

Definition sync (this : BaseGit) : M unit :=
  has_git ← existsSync ".git";
  _ ← (if negb has_git then
         _ ← initAsync;
         addRemoteAsync GIT_REMOTE_NAME (repository this)
       else ret tt);
  _ ← rawAsync ["remote"; "set-url"; GIT_REMOTE_NAME; repository this];
  _ ← try_catch (fetchAsync GIT_REMOTE_NAME "master")
        (fun e =>
           if test NO_REMOTE_REF_RE (error_text e) then _doInitialCommit this
           else throw e);
  resetAsync ["--hard"; GIT_REMOTE_NAME +:+ "/master"].

(** *** The states around the fetch of [sync] *)






(** The commands of the bootstrap. *)
Definition bootstrap_calls (this : BaseGit) : list call :=
  [Add "README.md"; Commit "First Commit!"; Push GIT_REMOTE_NAME (branch this)].




End BaseGit.


(** *** Sample worlds *)

Module Samples.
Import Git BaseGit.

Definition url : string := "git@github.com:acme/cauldron.git".


(** The same, with a README.md already in the working directory. *)
Definition w_readme : world :=
  mkWorld {[ "README.md" := "# notes" ]} None {[ url := Reachable ∅ ]} [].

Definition c1 : commit := ("Add nativeApps", {[ "cauldron.json" := "{ v1 }" ]}).



(** A new working directory; the repository has the branches master and
    develop. *)
Definition w_two_branches : world :=
  mkWorld ∅ None
          {[ url := Reachable {[ "master" := [c1];
                                 "develop" := [("Develop", {[ "cauldron.json" := "{ dev }" ]})] ]} ]}
          [].

End Samples.

(** ** Node's path.join (POSIX flavour) *)

Module Path.
Import Js.

(** The segments of a path between its separators. *)
Fixpoint split (sep : ascii) (s : string) : list string :=
  match s with
  | EmptyString => [EmptyString]
  | String c s' =>
      if Ascii.eqb c sep then EmptyString :: split sep s'
      else
        match split sep s' with
        | seg :: rest => String c seg :: rest
        | [] => [String c EmptyString]
        end
  end.









End Path.

(** ** Plugin download paths (src/ern-core/src/utils.ts) *)

Module Utils.
Import Js RegExp.




End Utils.

(** ** The native dependency version resolver

    The resolver ([nativeDepenciesVersionResolution] of ern-core) is called
    by the sources but is not among them; its two operations are modelled
    from the specification. *)

Module Resolver.
Import Js Dependency.

(** The (name, scope) pair that identifies a dependency. *)
Definition identity_of (d : Dependency) : string * option string :=
  (name d, scope d).

(** *** Versions *)

Definition is_digit (c : ascii) : bool :=
  (48 <=? nat_of_ascii c)%nat && (nat_of_ascii c <=? 57)%nat.

(** The number a string of decimal digits denotes. *)
Fixpoint digits_value (acc : N) (s : string) : option N :=
  match s with
  | EmptyString => Some acc
  | String c s' =>
      if is_digit c then digits_value (acc * 10 + N.of_nat (nat_of_ascii c - 48))%N s'
      else None
  end.

Definition number (s : string) : option N :=
  match s with
  | EmptyString => None
  | _ => digits_value 0 s
  end.

Record semver : Type := mkSemver {
  major : N;
  minor : N;
  patch : N;
  prerelease : option string
}.

(** The text before the first [c] and the text after it. *)
Fixpoint cut (c : ascii) (s : string) : string * option string :=
  match s with
  | EmptyString => (EmptyString, None)
  | String x s' =>
      if Ascii.eqb x c then (EmptyString, Some s')
      else (String x (cut c s').1, (cut c s').2)
  end.

(** Modelled from the spec: a semantic version is "numeric
    major.minor.patch", with an optional pre-release segment after a
    hyphen. *)
Definition parse_semver (v : string) : option semver :=
  match Path.split "." (cut "-" v).1 with
  | [a; b; c] =>
      match number a, number b, number c with
      | Some x, Some y, Some z =>
          match (cut "-" v).2 with
          | Some EmptyString => None
          | pre => Some (mkSemver x y z pre)
          end
      | _, _, _ => None
      end
  | _ => None
  end.

(** Modelled from the spec: "numeric major.minor.patch, pre-release
    segments lower than release"; two pre-releases of one release are told
    apart by their text. *)
Definition semver_gt (a b : semver) : bool :=
  match N.compare (major a) (major b) with
  | Gt => true
  | Lt => false
  | Eq =>
      match N.compare (minor a) (minor b) with
      | Gt => true
      | Lt => false
      | Eq =>
          match N.compare (patch a) (patch b) with
          | Gt => true
          | Lt => false
          | Eq =>
              match prerelease a, prerelease b with
              | None, Some _ => true
              | Some p, Some q => String.ltb q p
              | _, _ => false
              end
          end
      end
  end.

(** Modelled from the spec: "comparing two versions where one is not
    syntactically a valid semantic version falls back to a string
    comparison". *)
Definition version_gt (a b : string) : bool :=
  match parse_semver a, parse_semver b with
  | Some x, Some y => semver_gt x y
  | _, _ => String.ltb b a
  end.

(** A declared version is higher than an unset one. *)
Definition higher (a b : option string) : bool :=
  match a, b with
  | Some x, Some y => version_gt x y
  | Some _, None => true
  | None, _ => false
  end.

(** *** retainHighestVersions *)

(** The entry kept for a resolved dependency: the existing entry of its
    identity when that has the higher version, else the dependency. *)
Definition keep_higher (existing : list Dependency) (r : Dependency) : Dependency :=
  match find (fun e => bool_decide (identity_of e = identity_of r)) existing with
  | Some e => if higher (version e) (version r) then e else r
  | None => r
  end.

(** Modelled from the spec: "For every (name, scope) identity present in
    either list, keep whichever version is higher under semantic-version
    comparison; identities present only in one list pass through
    unchanged". *)
Definition retainHighestVersions (resolved existing : list Dependency)
  : list Dependency :=
  (keep_higher existing <$> resolved)
  ++ filter (fun e => identity_of e ∉ identity_of <$> resolved) existing.

(** Every identity occurs at most once: the invariant of the dependency
    list of a Version. *)
Definition unique (l : list Dependency) : Prop :=
  NoDup (identity_of <$> l).

(** *** resolveAcrossModules *)

Record ModuleDependencySet : Type := mkModule {
  moduleIdentity : string;
  dependencies : list Dependency
}.

Record Conflict : Type := mkConflict {
  identity : string * option string;
  versions : list string
}.

Record Resolution : Type := mkResolution {
  resolved : list Dependency;
  conflicts : list Conflict
}.

Fixpoint insert_sorted (v : string) (l : list string) : list string :=
  match l with
  | [] => [v]
  | x :: l' => if String.leb v x then v :: l else x :: insert_sorted v l'
  end.

(** The order of the strings, by which a conflict sorts its versions. *)
Definition string_le (a b : string) : Prop := String.leb a b = true.

(** Sorted by the order of the strings. *)
Definition sort (l : list string) : list string :=
  foldr insert_sorted [] l.

Definition declared (modules : list ModuleDependencySet) : list Dependency :=
  mjoin (dependencies <$> modules).

(** Modelled from the spec: "collect the distinct declared versions across
    modules (ignoring entries where version is unset)", as the "sorted
    distinct list" a conflict carries. *)
Definition distinct_versions (i : string * option string)
    (modules : list ModuleDependencySet) : list string :=
  sort (remove_dups
          (omap version
                (filter (fun d => identity_of d = i) (declared modules)))).

(** The highest of a list of versions, [None] for the empty list. *)
Definition highest (vs : list string) : option string :=
  match vs with
  | [] => None
  | v :: vs' =>
      Some (fold_left (fun best c => if version_gt c best then c else best) vs' v)
  end.

(** Modelled from the spec: "Group all declared dependencies by (name,
    scope) ignoring version.  For each group, collect the distinct declared
    versions [...].  If the distinct-version set has size 0 or 1, emit one
    resolved Dependency (no version if none was ever declared, else the
    single declared version).  If size > 1, emit a Conflict [...] and still
    emit a resolved entry using a deterministic default (the [...] highest
    version)". *)
Definition resolveAcrossModules (modules : list ModuleDependencySet) : Resolution :=
  let groups :=
    (fun i => (i, distinct_versions i modules))
      <$> remove_dups (identity_of <$> declared modules) in
  mkResolution
    ((fun g : (string * option string) * list string =>
        mkDependency g.1.1 g.1.2 (highest g.2)) <$> groups)
    (omap (fun g : (string * option string) * list string =>
             if decide (1 < List.length g.2)%nat then Some (mkConflict g.1 g.2) else None)
          groups).

End Resolver.

(** ** Strings of JavaScript: case and splitting *)

Module JsString.

Definition in_range (lo hi : nat) (c : ascii) : bool :=
  (lo <=? nat_of_ascii c)%nat && (nat_of_ascii c <=? hi)%nat.

(** The letters A to Z. *)
Definition is_upper (c : ascii) : bool := in_range 65 90 c.

(** The letters a to z. *)
Definition is_lower (c : ascii) : bool := in_range 97 122 c.

(** The lower case of a code unit below 256: the letters A to Z, and the
    upper case letters of Latin-1 (U+00C0 to U+00DE, the multiplication
    sign U+00D7 apart), lie 32 below their lower case. *)
Definition lower_char (c : ascii) : ascii :=
  if is_upper c || in_range 192 214 c || in_range 216 222 c
  then ascii_of_nat (nat_of_ascii c + 32)
  else c.

(** [String.prototype.toLowerCase] on the texts modelled here, of code
    units below 256: each unit is mapped by itself.  The rules of Unicode
    that look at the neighbours of a character, or give more than one
    character for one (the final sigma, the dotted capital I), concern
    characters outside this range. *)
Fixpoint toLowerCase (s : string) : string :=
  match s with
  | EmptyString => EmptyString
  | String c s' => String (lower_char c) (toLowerCase s')
  end.

(** Every character of the text satisfies [P]. *)
Fixpoint every (P : ascii -> bool) (s : string) : bool :=
  match s with
  | EmptyString => true
  | String c s' => P c && every P s'
  end.

(** The rest of the piece that is open, and the pieces after it: a piece
    ends before every character of the class. *)
Fixpoint pieces_from (cls : ascii -> bool) (s : string) : string * list string :=
  match s with
  | EmptyString => (EmptyString, [])
  | String c s' =>
      if cls c then (EmptyString, String c (pieces_from cls s').1 :: (pieces_from cls s').2)
      else (String c (pieces_from cls s').1, (pieces_from cls s').2)
  end.

(** [String.prototype.split] with a separator that is a lookahead for one
    character of a class: the separator is empty, so the text is cut
    before every character of the class -- but not at the start of a
    piece, where split steps over an empty match -- and nothing is
    removed.  The empty text gives one empty piece, the lookahead not
    matching at its end. *)
Definition split_before (cls : ascii -> bool) (s : string) : list string :=
  match s with
  | EmptyString => [EmptyString]
  | String c s' => String c (pieces_from cls s').1 :: (pieces_from cls s').2
  end.

End JsString.

(** ** Patterns with anchors and character classes, as tests

    The patterns of utils.ts that are only tested: the answer is whether
    some way of matching exists. *)

Module RegExpTest.

Inductive atom : Type :=
  | Chr (c : ascii)                   (* a literal character *)
  | Dot                               (* any character but a line terminator *)
  | Class (ranges : list (nat * nat)) (* a character in one of the ranges *).

Inductive node : Type :=
  | One (a : atom)
  | Star (a : atom)
  | Plus (a : atom)
  | Bos    (* the start of the text *)
  | Eos    (* the end of the text *).

Definition accepts (a : atom) (c : ascii) : bool :=
  match a with
  | Chr x => Ascii.eqb c x
  | Dot => RegExp.dot c
  | Class ranges => existsb (fun r : nat * nat => JsString.in_range r.1 r.2 c) ranges
  end.

(** Iteration of an atom, the longest run first, followed by the
    continuation [k]; [start] tells whether the position is the start of
    the text. *)
Fixpoint iterate (a : atom) (k : bool -> string -> bool) (start : bool) (s : string)
  : bool :=
  match s with
  | String c s' => (accepts a c && iterate a k false s') || k start s
  | EmptyString => k start s
  end.

Fixpoint matches (r : list node) (start : bool) (s : string) {struct r} : bool :=
  match r with
  | [] => true
  | One a :: r' =>
      match s with
      | String c s' => accepts a c && matches r' false s'
      | EmptyString => false
      end
  | Star a :: r' => iterate a (matches r') start s
  | Plus a :: r' =>
      match s with
      | String c s' => accepts a c && iterate a (matches r') false s'
      | EmptyString => false
      end
  | Bos :: r' => start && matches r' start s
  | Eos :: r' =>
      match s with
      | EmptyString => matches r' start s
      | String _ _ => false
      end
  end.

Fixpoint search (r : list node) (start : bool) (s : string) : bool :=
  matches r start s
  || match s with
     | String _ s' => search r false s'
     | EmptyString => false
     end.

(** [RegExp.prototype.test] for a pattern without flags. *)
Definition test (r : list node) (s : string) : bool := search r true s.

Definition chars (s : string) : list node :=
  map (fun c => One (Chr c)) (list_ascii_of_string s).

End RegExpTest.

(** ** Module names (src/ern-core/src/utils.ts) *)

Module ModuleNames.
Import Js JsString RegExpTest.

(** The constants of ./ModuleTypes, which is not among the sources. *)
Record ModuleTypes : Type := mkModuleTypes {
  MINIAPP : string;
  API : string;
  JS_API_IMPL : string;
  NATIVE_API_IMPL : string
}.

Definition splitCamelCaseString (camelCaseString : string) : list string :=
  toLowerCase <$> split_before is_upper camelCaseString.

(** [includes] on an array of strings. *)
Definition includes (l : list string) (token : string) : bool :=
  existsb (String.eqb token) l.

Section WithModuleTypes.
Variable ModuleType : ModuleTypes.

(** [switch (moduleType)]: the first case that is strictly equal. *)
Definition getDefaultPackageNameForCamelCaseString
    (moduleName : string) (moduleType : option string) : string :=
  let splitArray := splitCamelCaseString moduleName in
  if strict_eq moduleType (Some (MINIAPP ModuleType)) then
    String.concat "-" (List.filter (fun token => negb (includes ["mini"; "app"] token)) splitArray)
  else if strict_eq moduleType (Some (API ModuleType)) then
    String.concat "-" (List.filter (fun token => negb (includes ["api"] token)) splitArray)
  else if strict_eq moduleType (Some (JS_API_IMPL ModuleType))
          || strict_eq moduleType (Some (NATIVE_API_IMPL ModuleType)) then
    String.concat "-" (List.filter (fun token => negb (includes ["api"; "impl"] token)) splitArray)
  else String.concat "-" splitArray.

Definition getDefaultPackageNameForModule (moduleName moduleType : string)
  : outcome string :=
  let basePackageName :=
    getDefaultPackageNameForCamelCaseString moduleName (Some moduleType) in
  if String.eqb moduleType (MINIAPP ModuleType) then
    Returned (basePackageName +:+ "-miniapp")
  else if String.eqb moduleType (API ModuleType) then
    Returned (basePackageName +:+ "-api")
  else if String.eqb moduleType (JS_API_IMPL ModuleType) then
    Returned (basePackageName +:+ "-api-impl-js")
  else if String.eqb moduleType (NATIVE_API_IMPL ModuleType) then
    Returned (basePackageName +:+ "-api-impl-native")
  else Thrown ("Unsupported module type : " +:+ moduleType).

End WithModuleTypes.

(** The source pattern: start, one or more of a-z and A-Z, end. *)
Definition MODULE_NAME_RE : list node :=
  [Bos; Plus (Class [(97, 122); (65, 90)]); Eos].

Definition isValidElectrodeNativeModuleName (name : string) : bool :=
  test MODULE_NAME_RE name.

(** Module type constants to run the functions with. *)
Definition sample_types : ModuleTypes :=
  mkModuleTypes "ern-miniapp" "ern-api" "ern-js-api-impl" "ern-native-api-impl".

End ModuleNames.


(** ** Kinds of dependencies (src/ern-core/src/utils.ts)

    [yarn.info] and [PackagePath] are not among the sources: they are
    parameters, [yarn.info] acting on a state of its own that the model
    leaves open.  [log.debug] leaves no trace in the model. *)

Module ApiKinds.
Import Js RegExpTest ModuleNames.

(** The source pattern: start, dot-star, "react-native-", dot-plus, "-api",
    end. *)
Definition API_NAME_RE : list node :=
  [Bos; Star Dot] ++ chars "react-native-" ++ [Plus Dot] ++ chars "-api" ++ [Eos].

(** The source pattern: start, dot-star, "react-native-", dot-plus,
    "-api-impl", end. *)
Definition API_IMPL_NAME_RE : list node :=
  [Bos; Star Dot] ++ chars "react-native-" ++ [Plus Dot] ++ chars "-api-impl" ++ [Eos].

(** What [yarn.info] answers with: [type], and [data] with its
    [moduleType]; any of them may be missing. *)
Record DepData : Type := mkDepData { moduleType : option string }.
Record DepInfo : Type := mkDepInfo {
  type : option string;
  data : option DepData
}.

(** What the functions return: a boolean, or [undefined] where the data is
    missing. *)
Inductive answer : Type :=
  | Bool (b : bool)
  | Undefined.

Definition truthy_answer (a : answer) : bool :=
  match a with
  | Bool b => b
  | Undefined => false
  end.

Section WithYarn.
Variable ModuleType : ModuleTypes.
Variable State : Type.
Variable PackagePath : Type.
Variable PackagePath_fromString : string -> outcome PackagePath.
Variable PackagePath_toString : PackagePath -> string.
(** [yarn.info(pkg, { field, json: true })]: the answer, [None] for a
    null or undefined one, or a rejection. *)
Variable yarn_info : PackagePath -> string -> State -> outcome (option DepInfo) * State.

(** An async function: it settles with a value or rejects. *)
Definition Async (A : Type) : Type := State -> outcome A * State.

Definition resolve {A} (a : A) : Async A := fun st => (Returned a, st).

Definition await {A B} (m : Async A) (k : A -> Async B) : Async B :=
  fun st =>
    match m st with
    | (Returned a, st') => k a st'
    | (Thrown e, st') => (Thrown e, st')
    end.

(** [try { body } catch (e) { handler }] *)
Definition try_catch {A} (body : Async A) (handler : string -> Async A) : Async A :=
  fun st =>
    match body st with
    | (Returned a, st') => (Returned a, st')
    | (Thrown e, st') => handler e st'
    end.

(** [yarn.info(PackagePath.fromString(dependencyName), ...)] with the field
    both callers ask for. *)
Definition info_of (dependencyName : string) : Async (option DepInfo) :=
  match PackagePath_fromString dependencyName with
  | Returned pkg => yarn_info pkg "ern 2> /dev/null"
  | Thrown e => fun st => (Thrown e, st)
  end.

(** [depInfo && depInfo.type === 'error' ? false : depInfo.data && test]:
    reading [data] of a null answer throws a TypeError. *)
Definition judge (depInfo : option DepInfo) (test : option string -> bool)
  : Async answer :=
  match depInfo with
  | None => fun st => (Thrown "TypeError: Cannot read property 'data' of undefined", st)
  | Some info =>
      if strict_eq (type info) (Some "error") then resolve (Bool false)
      else
        match data info with
        | None => resolve Undefined
        | Some d => resolve (Bool (test (moduleType d)))
        end
  end.

(** [yarn.info] gave nothing to judge: it rejected (or the package path
    did not parse), answered null, or answered with an error. *)
Definition nothing_known (name : string) (st : State) : Prop :=
  match (info_of name st).1 with
  | Returned (Some info) => type info = Some "error"
  | _ => True
  end.

Definition isDependencyApi (dependencyName : string) : Async answer :=
  if RegExpTest.test API_NAME_RE dependencyName then resolve (Bool true)
  else
    try_catch
      (await (info_of dependencyName)
         (fun depInfo =>
            judge depInfo (fun mt => strict_eq (Some (API ModuleType)) mt)))
      (fun e => resolve (Bool false)).

(** [modulesTypes.indexOf(moduleType) > -1] *)
Definition index_found (modulesTypes : list string) (mt : option string) : bool :=
  existsb (fun t => strict_eq (Some t) mt) modulesTypes.

Definition isDependencyApiImpl (dependencyName : string + PackagePath)
    (forceYanInfo : bool) (type : option string) : Async answer :=
  let dependencyName :=
    match dependencyName with
    | inl name => name
    | inr pkg => PackagePath_toString pkg
    end in
  if negb (truthy type) && negb forceYanInfo
     && RegExpTest.test API_IMPL_NAME_RE dependencyName then resolve (Bool true)
  else
    let modulesTypes :=
      if truthy type then [text type]
      else [NATIVE_API_IMPL ModuleType; JS_API_IMPL ModuleType] in
    try_catch
      (await (info_of dependencyName)
         (fun depInfo => judge depInfo (index_found modulesTypes)))
      (fun e => resolve (Bool false)).

Definition isDependencyJsApiImpl (dependency : string + PackagePath) : Async answer :=
  isDependencyApiImpl dependency true (Some (JS_API_IMPL ModuleType)).

Definition isDependencyNativeApiImpl (dependency : string + PackagePath) : Async answer :=
  isDependencyApiImpl dependency true (Some (NATIVE_API_IMPL ModuleType)).

(** [isApi || isApiImpl] *)
Definition or_answer (a b : answer) : answer :=
  if truthy_answer a then a else b.

Definition isDependencyApiOrApiImpl (dependencyName : string) : Async answer :=
  await (isDependencyApi dependencyName) (fun isApi =>
  await (if negb (truthy_answer isApi)
         then isDependencyApiImpl (inl dependencyName) false None
         else resolve (Bool false)) (fun isApiImpl =>
  resolve (or_answer isApi isApiImpl))).

Fixpoint extractJsApiImplementations (plugins : list PackagePath)
  : Async (list PackagePath) :=
  match plugins with
  | [] => resolve []
  | dependency :: rest =>
      await (isDependencyJsApiImpl (inr dependency)) (fun isImpl =>
      await (extractJsApiImplementations rest) (fun found =>
      resolve (if truthy_answer isImpl then dependency :: found else found)))
  end.

End WithYarn.

(** A registry that cannot be reached. *)
Definition offline : string -> string -> unit -> outcome (option DepInfo) * unit :=
  fun _ _ st => (Thrown "offline", st).

End ApiKinds.


(** * Properties *)

(** ** Strings *)

Section StringFacts.

Lemma append_cons (c : ascii) (s t : string) :
  String c s +:+ t = String c (s +:+ t).
Proof. reflexivity. Qed.

Lemma append_nil_r (s : string) : s +:+ "" = s.
Proof.
  induction s as [|c s IH]; [reflexivity |].
  by rewrite append_cons, IH.
Qed.

Lemma append_assoc (a b c : string) : (a +:+ b) +:+ c = a +:+ (b +:+ c).
Proof.
  induction a as [|x a IH]; [reflexivity |].
  by rewrite !append_cons, IH.
Qed.

Lemma has_append (c : ascii) (a b : string) :
  Grammar.has c (a +:+ b) = Grammar.has c a || Grammar.has c b.
Proof.
  induction a as [|x a IH]; [reflexivity |].
  rewrite append_cons. simpl. by rewrite IH, orb_assoc.
Qed.

Lemma one_line_append (a b : string) :
  Grammar.one_line (a +:+ b) = Grammar.one_line a && Grammar.one_line b.
Proof.
  induction a as [|x a IH]; [reflexivity |].
  rewrite append_cons. simpl. by rewrite IH, andb_assoc.
Qed.

Lemma token_inv (s : string) :
  Grammar.token s = true ->
  s <> "" /\ Grammar.one_line s = true
  /\ Grammar.has "@" s = false /\ Grammar.has "/" s = false.
Proof.
  unfold Grammar.token. intros H.
  repeat (apply andb_prop in H; destruct H as [H ?]).
  repeat split; try by apply negb_true_iff.
  - apply negb_true_iff, String.eqb_neq in H. exact H.
  - assumption.
Qed.

Lemma token_truthy (s : string) : Grammar.token s = true -> Js.truthy (Some s) = true.
Proof. intros H. apply token_inv in H as [H _]. by destruct s. Qed.

End StringFacts.

(** ** The regular expression matcher *)

Section RegExpFacts.
Import RegExp Grammar.

(** The greedy iteration fails on a set of inputs closed under removing
    the first character on which the continuation always fails. *)
Lemma star_none (k : string -> option (list string)) (P : string -> Prop) :
  (forall x s, P (String x s) -> P s) ->
  (forall s, P s -> k s = None) ->
  forall s, P s -> star k s = None.
Proof.
  intros Htail Hk s. induction s as [|x s IH]; intros HP; simpl.
  - by rewrite (Hk _ HP).
  - rewrite (IH (Htail _ _ HP)), (Hk _ HP). by destruct (dot x).
Qed.

(** It succeeds wherever the continuation does. *)
Lemma star_some (k : string -> option (list string)) (s : string) :
  is_Some (k s) -> is_Some (star k s).
Proof.
  intros [gs Hk]. destruct s as [|x s]; simpl.
  - rewrite Hk. eauto.
  - destruct (dot x); [destruct (star k s) as [[t gs']|] |]; rewrite ?Hk; eauto.
Qed.

(** A run of one-line characters in front of a match is taken up by the
    iteration. *)
Lemma star_prefix (k : string -> option (list string)) pre post t gs :
  one_line pre = true ->
  star k post = Some (t, gs) ->
  star k (pre +:+ post) = Some (pre +:+ t, gs).
Proof.
  intros Hpre Hpost. induction pre as [|x pre IH]; [exact Hpost |].
  simpl in Hpre. apply andb_prop in Hpre as [Hx Hpre].
  rewrite !append_cons. simpl. rewrite Hx, (IH Hpre). reflexivity.
Qed.

(** Where no longer run leads to a match, the iteration stops at once. *)
Lemma star_stop (k : string -> option (list string)) post gs :
  k post = Some gs ->
  (forall x post', post = String x post' -> star k post' = None) ->
  star k post = Some ("", gs).
Proof.
  intros Hk Hlater. destruct post as [|x post]; simpl.
  - by rewrite Hk.
  - rewrite (Hlater x post eq_refl), Hk. by destruct (dot x).
Qed.

Lemma lit_needs (c : ascii) (r : pattern) (s : string) :
  has c s = false -> match_here (Lit c :: r) s = None.
Proof.
  destruct s as [|x s]; simpl; [done |].
  intros H. apply orb_false_elim in H as [-> _]. reflexivity.
Qed.

(** A pattern with a literal character fails on a text without it. *)
Lemma match_here_needs (c : ascii) (r : pattern) :
  In (Lit c) r -> forall s, has c s = false -> match_here r s = None.
Proof.
  induction r as [|i r IH]; [intros [] |].
  intros [-> | Hin]; [intros s; apply lit_needs |].
  specialize (IH Hin).
  assert (Hstar : forall s, has c s = false -> star (match_here r) s = None).
  { apply (star_none _ (fun s => has c s = false)); [| exact IH].
    intros x s H. simpl in H. by apply orb_false_elim in H as [_ ?]. }
  intros s Hs. destruct i as [c' | | cap | cap]; simpl.
  - destruct s as [|x s]; [done |]. simpl in Hs.
    apply orb_false_elim in Hs as [_ Hs]. rewrite (IH _ Hs). by destruct (Ascii.eqb x c').
  - destruct s as [|x s]; [done |]. simpl in Hs.
    apply orb_false_elim in Hs as [_ Hs]. rewrite (IH _ Hs). by destruct (dot x).
  - by rewrite (Hstar _ Hs).
  - destruct s as [|x s]; [done |]. simpl in Hs.
    apply orb_false_elim in Hs as [_ Hs]. simpl. rewrite (Hstar _ Hs). by destruct (dot x).
Qed.

Lemma exec_needs (c : ascii) (r : pattern) :
  In (Lit c) r -> forall s, has c s = false -> exec r s = None.
Proof.
  intros Hin s. induction s as [|x s IH]; intros Hs; simpl.
  - by rewrite (match_here_needs c r Hin).
  - rewrite (match_here_needs c r Hin _ Hs).
    simpl in Hs. apply orb_false_elim in Hs as [_ Hs]. by apply IH.
Qed.

Lemma match_here_star (cap : bool) (r : pattern) (s : string) :
  match_here (Star cap :: r) s = group cap (star (match_here r) s).
Proof. reflexivity. Qed.

Lemma match_here_plus (cap : bool) (r : pattern) (c : ascii) (s : string) :
  dot c = true ->
  match_here (Plus cap :: r) (String c s)
  = group cap (match star (match_here r) s with
               | Some (t, gs) => Some (String c t, gs)
               | None => None
               end).
Proof. intros H. simpl. unfold plus. by rewrite H. Qed.

Lemma match_here_lit (c : ascii) (r : pattern) (s : string) :
  match_here (Lit c :: r) (String c s) = match_here r s.
Proof. simpl. by rewrite Ascii.eqb_refl. Qed.

Lemma exec_here (r : pattern) (s : string) gs :
  match_here r s = Some gs -> exec r s = Some gs.
Proof. intros H. destruct s; simpl; by rewrite H. Qed.

(** The iteration in front of a literal stops at the last occurrence of
    the literal. *)
Lemma star_lit (c : ascii) (r : pattern) pre v gs :
  one_line pre = true ->
  has c v = false ->
  match_here r v = Some gs ->
  star (match_here (Lit c :: r)) (pre +:+ String c v) = Some (pre, gs).
Proof.
  intros Hpre Hv Hr.
  rewrite <- (append_nil_r pre) at 2.
  apply star_prefix; [exact Hpre |].
  apply star_stop.
  - simpl. by rewrite Ascii.eqb_refl.
  - intros x post' [= <- <-].
    apply (star_none _ (fun s => has c s = false)); [| apply lit_needs | exact Hv].
    intros y s H. simpl in H. by apply orb_false_elim in H as [_ ?].
Qed.

(** The iteration that ends a pattern takes the rest of the line. *)
Lemma star_end (v : string) :
  one_line v = true -> star (match_here []) v = Some (v, []).
Proof.
  intros Hv. rewrite <- (append_nil_r v) at 1.
  rewrite (star_prefix _ v "" "" [] Hv); [by rewrite append_nil_r | reflexivity].
Qed.

End RegExpFacts.

(** ** Dependency: parsing and printing *)

Section DependencyFacts.
Import Js RegExp Dependency Grammar.

Lemma group_some (cap : bool) r : is_Some r -> is_Some (group cap r).
Proof. intros [[t gs] ->]. simpl. eauto. Qed.

(** The unscoped versioned pattern matches every text with an at-sign. *)
Lemma exec_name_version (s : string) :
  has "@" s = true -> is_Some (exec NAME_VERSION_RE s).
Proof.
  induction s as [|x s IH]; [discriminate |].
  intros H. simpl in H.
  destruct (Ascii.eqb x "@") eqn:Hx.
  - apply Ascii.eqb_eq in Hx as ->.
    assert (Hm : is_Some (match_here NAME_VERSION_RE (String "@" s))).
    { unfold NAME_VERSION_RE. rewrite match_here_star.
      apply group_some, star_some. rewrite match_here_lit, match_here_star.
      apply group_some, star_some. simpl. eauto. }
    destruct Hm as [gs Hm]. rewrite (exec_here _ _ _ Hm). eauto.
  - simpl in H. cbn [exec].
    destruct (match_here NAME_VERSION_RE (String x s)); [eauto | by apply IH].
Qed.

(** A text that starts with an at-sign always parses to a Dependency with
    a version: one of the two versioned patterns matches it. *)
Lemma fromString_at_sign (rest : string) :
  is_Some (version (fromString (String "@" rest))).
Proof.
  unfold fromString, test.
  destruct (exec SCOPE_NAME_VERSION_RE (String "@" rest)) as [m|]; [simpl; eauto |].
  destruct (exec_name_version (String "@" rest)) as [gs H]; [reflexivity |].
  rewrite H. simpl. eauto.
Qed.

(** The scoped unversioned pattern matches no text that the unscoped
    versioned pattern, tried before it, does not match. *)
Lemma scoped_unversioned_shadowed (str : string) :
  is_Some (exec SCOPE_NAME_NO_VERSION_RE str) -> is_Some (exec NAME_VERSION_RE str).
Proof.
  intros [m Hm]. apply exec_name_version.
  destruct (has "@" str) eqn:Hat; [reflexivity |].
  rewrite (exec_needs "@" SCOPE_NAME_NO_VERSION_RE) in Hm; [discriminate | simpl; auto | exact Hat].
Qed.

Lemma fromString_bare (n : string) :
  has "@" n = false -> fromString n = mkDependency n None None.
Proof.
  intros H. unfold fromString, test.
  rewrite (exec_needs "@" SCOPE_NAME_VERSION_RE), (exec_needs "@" NAME_VERSION_RE),
    (exec_needs "@" SCOPE_NAME_NO_VERSION_RE); simpl; auto.
Qed.

Lemma match_name_version (n v : string) :
  one_line n = true -> one_line v = true -> has "@" v = false ->
  match_here NAME_VERSION_RE (n +:+ String "@" v) = Some [n; v].
Proof.
  intros Hn Hv Hat. unfold NAME_VERSION_RE. rewrite match_here_star.
  rewrite (star_lit "@" [Star true] n v [v] Hn Hat); [reflexivity |].
  by rewrite match_here_star, (star_end v Hv).
Qed.

Lemma fromString_versioned (n v : string) :
  one_line n = true -> has "/" n = false ->
  one_line v = true -> has "@" v = false -> has "/" v = false ->
  fromString (n +:+ "@" +:+ v) = mkDependency n None (Some v).
Proof.
  intros Hn Hns Hv Hva Hvs. unfold fromString, test.
  change ("@" +:+ v) with (String "@" v).
  rewrite (exec_needs "/" SCOPE_NAME_VERSION_RE); [| simpl; auto |].
  - by rewrite (exec_here _ _ _ (match_name_version n v Hn Hv Hva)).
  - rewrite has_append, Hns. simpl. exact Hvs.
Qed.

Lemma fromString_scoped_versioned (s n v : string) :
  token s = true ->
  one_line n = true -> has "/" n = false ->
  one_line v = true -> has "@" v = false -> has "/" v = false ->
  fromString ("@" +:+ s +:+ "/" +:+ n +:+ "@" +:+ v) = mkDependency n (Some s) (Some v).
Proof.
  intros Hs Hn Hns Hv Hva Hvs.
  apply token_inv in Hs as (Hne & Hsl & _ & _).
  destruct s as [|c s]; [done |]. simpl in Hsl. apply andb_prop in Hsl as [Hc Hsl].
  unfold fromString, test.
  change ("@" +:+ String c s +:+ "/" +:+ n +:+ "@" +:+ v)
    with (String "@" (String c (s +:+ String "/" (n +:+ String "@" v)))).
  assert (H : match_here SCOPE_NAME_VERSION_RE
                (String "@" (String c (s +:+ String "/" (n +:+ String "@" v))))
              = Some [String c s; n; v]).
  { unfold SCOPE_NAME_VERSION_RE. rewrite match_here_lit, (match_here_plus _ _ _ _ Hc).
    rewrite (star_lit "/" [Star true; Lit "@"; Star true] s _ [n; v] Hsl); [reflexivity | |].
    - rewrite has_append, Hns. simpl. exact Hvs.
    - apply (match_name_version n v Hn Hv Hva). }
  by rewrite (exec_here _ _ _ H).
Qed.

Lemma fromString_scoped_unversioned (s n : string) :
  token s = true -> token n = true ->
  fromString ("@" +:+ s +:+ "/" +:+ n) = mkDependency "" None (Some (s +:+ "/" +:+ n)).
Proof.
  intros Hs Hn.
  apply token_inv in Hs as (_ & Hsl & Hsa & _).
  apply token_inv in Hn as (_ & Hnl & Hna & _).
  assert (Hat : has "@" (s +:+ "/" +:+ n) = false).
  { rewrite has_append, Hsa. change ("/" +:+ n) with (String "/" n). simpl. exact Hna. }
  assert (Hl : one_line (s +:+ "/" +:+ n) = true).
  { rewrite one_line_append, Hsl. change ("/" +:+ n) with (String "/" n). simpl. exact Hnl. }
  unfold fromString, test.
  change ("@" +:+ s +:+ "/" +:+ n) with (String "@" (s +:+ "/" +:+ n)).
  assert (H1 : exec SCOPE_NAME_VERSION_RE (String "@" (s +:+ "/" +:+ n)) = None).
  { cbn [exec]. unfold SCOPE_NAME_VERSION_RE at 1. rewrite match_here_lit.
    rewrite (match_here_needs "@"); [| simpl; auto 10 | exact Hat].
    apply (exec_needs "@"); [simpl; auto 10 | exact Hat]. }
  rewrite H1.
  pose proof (match_name_version "" (s +:+ "/" +:+ n) eq_refl Hl Hat) as H2.
  change ("" +:+ String "@" (s +:+ "/" +:+ n)) with (String "@" (s +:+ "/" +:+ n)) in H2.
  by rewrite (exec_here _ _ _ H2).
Qed.

Lemma well_formed_inv (d : Dependency) :
  well_formed d = true ->
  token (name d) = true
  /\ (forall s, scope d = Some s -> token s = true)
  /\ (forall v, version d = Some v -> token v = true).
Proof.
  unfold well_formed. intros H.
  apply andb_prop in H as [H Hv]. apply andb_prop in H as [Hn Hs].
  repeat split; [exact Hn | |].
  - intros s Heq. by rewrite Heq in Hs.
  - intros v Heq. by rewrite Heq in Hv.
Qed.

Lemma toString_scoped_versioned (n s v : string) :
  token s = true -> token v = true ->
  toString (mkDependency n (Some s) (Some v))
  = "@" +:+ s +:+ "/" +:+ n +:+ "@" +:+ v.
Proof.
  intros Hs Hv. unfold toString; cbn [scope name version text].
  by rewrite (token_truthy s Hs), (token_truthy v Hv), !append_assoc.
Qed.

Lemma toString_versioned (n v : string) :
  token v = true ->
  toString (mkDependency n None (Some v)) = n +:+ "@" +:+ v.
Proof.
  intros Hv. unfold toString; cbn [scope name version text].
  by rewrite (token_truthy v Hv).
Qed.

Lemma toString_scoped (n s : string) :
  token s = true ->
  toString (mkDependency n (Some s) None) = "@" +:+ s +:+ "/" +:+ n.
Proof.
  intros Hs. unfold toString; cbn [scope name version text].
  rewrite (token_truthy s Hs). cbn [truthy].
  by rewrite append_nil_r, !append_assoc.
Qed.

Lemma toString_bare (n : string) :
  toString (mkDependency n None None) = n.
Proof. unfold toString; cbn [scope name version text truthy]. apply append_nil_r. Qed.

(** The canonical string of a well-formed Dependency parses back to it,
    unless it has a scope and no version. *)
Lemma fromString_toString (d : Dependency) :
  well_formed d = true -> scoped_unversioned d = false ->
  fromString (toString d) = d.
Proof.
  intros Hwf Hsu. apply well_formed_inv in Hwf as (Hn & Hs & Hv).
  destruct d as [n [s|] [v|]]; cbn [name scope version] in *; try discriminate.
  - specialize (Hs s eq_refl). specialize (Hv v eq_refl).
    rewrite (toString_scoped_versioned n s v Hs Hv).
    apply token_inv in Hn as (_ & ? & ? & ?).
    pose proof (token_inv v Hv) as (_ & ? & ? & ?).
    by apply fromString_scoped_versioned.
  - specialize (Hv v eq_refl). rewrite (toString_versioned n v Hv).
    apply token_inv in Hn as (_ & ? & ? & ?).
    pose proof (token_inv v Hv) as (_ & ? & ? & ?).
    by apply (fromString_versioned n v).
  - rewrite toString_bare.
    apply token_inv in Hn as (_ & ? & ? & ?).
    by apply fromString_bare.
Qed.

(** [C7] A Dependency and its copy without version are the same when the
    version is ignored; when the version is compared and the Dependency has
    one, they are not: [withoutVersion] clears the version and keeps name
    and scope. *)
Theorem C7_same_withoutVersion (d : Dependency) :
  same d (withoutVersion d) true = true
  /\ (version d <> None -> same d (withoutVersion d) false = false).
Proof.
  assert (Hscope : strict_eq (scope d) (scope d) = true).
  { destruct (scope d); simpl; [apply String.eqb_refl | reflexivity]. }
  unfold same, withoutVersion, new; simpl. rewrite String.eqb_refl, Hscope.
  split; [reflexivity |].
  intros Hv. destruct (version d); [reflexivity | done].
Qed.

Lemma C7_same_withoutVersion_witness :
  same (mkDependency "bar" (Some "foo") (Some "1.0.0"))
       (withoutVersion (mkDependency "bar" (Some "foo") (Some "1.0.0"))) false = false.
Proof.
  apply (proj2 (C7_same_withoutVersion (mkDependency "bar" (Some "foo") (Some "1.0.0")))).
  simpl. discriminate.
Defined.

(** [C1] The scoped unversioned string "@foo/bar" does not parse to name
    bar, scope foo and no version: the result has the empty name, no scope
    and the version "foo/bar".  The unscoped versioned pattern is tried
    before the scoped unversioned one and matches every text that one
    matches, so the third branch of the parser is never taken, and for no
    scope [s] and name [n] does "@s/n" parse to name [n], scope [s] and no
    version. *)
Theorem C1_fromString_scoped_unversioned :
  fromString "@foo/bar" = mkDependency "" None (Some "foo/bar")
  /\ (forall str, is_Some (exec SCOPE_NAME_NO_VERSION_RE str) ->
                  is_Some (exec NAME_VERSION_RE str))
  /\ forall s n, fromString ("@" +:+ s +:+ "/" +:+ n) <> mkDependency n (Some s) None.
Proof.
  split; [reflexivity | split; [exact scoped_unversioned_shadowed |]].
  intros s n Heq.
  pose proof (fromString_at_sign (s +:+ "/" +:+ n)) as [v Hv].
  change (String "@" (s +:+ "/" +:+ n)) with ("@" +:+ s +:+ "/" +:+ n) in Hv.
  rewrite Heq in Hv. discriminate.
Qed.

(** [C2] Round trip, on the Dependencies whose present fields are tokens
    (non-empty, on one line, without at-sign or slash), the ones the
    grammar prints.  With a scope and no version the law fails: the
    canonical string "@scope/name" parses to the empty name, no scope and
    the version "scope/name".  In every other shape the canonical string
    parses back to the Dependency.  In all shapes, what the canonical
    string parses to prints and parses back to itself. *)
Theorem C2_round_trip (d : Dependency) :
  well_formed d = true ->
  (scoped_unversioned d = true ->
   fromString (toString d)
   = mkDependency "" None (Some (text (scope d) +:+ "/" +:+ name d))
   /\ fromString (toString d) <> d)
  /\ (scoped_unversioned d = false -> fromString (toString d) = d)
  /\ fromString (toString (fromString (toString d))) = fromString (toString d).
Proof.
  intros Hwf.
  destruct (scoped_unversioned d) eqn:Hsu.
  - apply well_formed_inv in Hwf as (Hn & Hs & _).
    destruct d as [n [s|] [v|]]; cbn [name scope version] in *; try discriminate.
    specialize (Hs s eq_refl).
    rewrite (toString_scoped n s Hs), (fromString_scoped_unversioned s n Hs Hn).
    split; [split; [reflexivity | discriminate] | split; [discriminate |]].
    assert (Hprint : toString (mkDependency "" None (Some (s +:+ "/" +:+ n)))
                     = "@" +:+ s +:+ "/" +:+ n).
    { unfold toString; cbn [scope name version text].
      apply token_inv in Hs as (Hne & _). by destruct s. }
    rewrite Hprint. by apply fromString_scoped_unversioned.
  - split; [discriminate |].
    split; [intros _; by apply fromString_toString |].
    by rewrite !(fromString_toString d Hwf Hsu).
Qed.

Lemma C2_round_trip_witness :
  fromString (toString (mkDependency "bar" (Some "foo") None))
  = mkDependency "" None (Some "foo/bar")
  /\ fromString (toString (mkDependency "bar" (Some "foo") None))
     <> mkDependency "bar" (Some "foo") None.
Proof.
  apply (proj1 (C2_round_trip (mkDependency "bar" (Some "foo") None) eq_refl)).
  reflexivity.
Defined.

End DependencyFacts.

(** ** The git commands *)

Section GitFacts.
Import Js RegExp Git BaseGit.
Local Open Scope list_scope.

Ltac run :=
  unfold mbind, M_bind, bind, record, get_repo, get_world, set_repo,
    set_worktree, set_server, ret, mret, M_ret, throw,
    log, with_repo, with_worktree, with_server; simpl.






Lemma add_run (path content : string) (r : repo) (w : world) :
  dotgit w = Some r -> worktree w !! path = Some content ->
  addAsync path w
  = (Returned tt, with_repo (set_index (<[path := content]> (index r)) r) (log (Add path) w)).
Proof. intros H Hf. unfold addAsync. run. rewrite H; simpl. by rewrite Hf. Qed.

(** A commit settles whenever there is a repository. *)
Lemma commit_run (message : string) (r : repo) (w : world) :
  dotgit w = Some r ->
  exists r',
    commitAsync message w = (Returned tt, with_repo r' (log (Commit message) w))
    /\ remotes r' = remotes r.
Proof.
  intros H. unfold commitAsync. run. rewrite H; simpl.
  destruct (decide (index r = tree_of (head_history r))).
  - by exists r.
  - eexists. split; [reflexivity | done].
Qed.

(** Whatever comes of a push, it is the one command issued, and the files
    of the working directory stay. *)
Lemma push_run (remote branch : string) (w : world) :
  exists o w',
    Git.pushAsync remote branch w = (o, w')
    /\ calls w' = calls w ++ [Push remote branch]
    /\ worktree w' = worktree w
    /\ (is_Some (dotgit w) -> is_Some (dotgit w')).
Proof.
  unfold Git.pushAsync. run.
  destruct (dotgit w) as [r|] eqn:H; simpl; [| by eauto 10].
  destruct (remotes r !! remote) as [url|]; simpl; [| by eauto 10].
  destruct (heads r !! branch) as [h|]; simpl; [| by eauto 10].
  unfold lookup_remote; simpl.
  destruct (default _ (server w !! url)) as [bs | e]; simpl; [| by eauto 10].
  destruct (decide _); simpl; by eauto 10.
Qed.


(** ** BaseGit.sync *)



Lemma bind_returned {A B} (m : M A) (k : A -> M B) w a w' :
  m w = (Returned a, w') -> bind m k w = k a w'.
Proof. intros H. unfold bind. by rewrite H. Qed.










(** ** BaseGit._doInitialCommit *)

Lemma doInitialCommit_present (this : BaseGit) (w : world) :
  is_Some (worktree w !! "README.md") ->
  _doInitialCommit this w = (Returned tt, w).
Proof.
  intros H. unfold _doInitialCommit, mbind, M_bind.
  erewrite (bind_returned (existsSync "README.md")) by reflexivity.
  simpl. by rewrite bool_decide_eq_true_2.
Qed.

Lemma doInitialCommit_absent (this : BaseGit) (w : world) :
  worktree w !! "README.md" = None ->
  is_Some (dotgit w) ->
  exists o w',
    _doInitialCommit this w = (o, w')
    /\ calls w' = calls w ++ bootstrap_calls this
    /\ worktree w' = <["README.md" := README]> (worktree w).
Proof.
  intros Hfile [r Hgit]. unfold _doInitialCommit, mbind, M_bind.
  erewrite (bind_returned (existsSync "README.md")) by reflexivity.
  simpl. rewrite bool_decide_eq_false_2 by (rewrite Hfile; by intros [? ?]). simpl.
  erewrite (bind_returned (writeFile _ _)) by reflexivity.
  erewrite (bind_returned (addAsync _));
    [| by apply (add_run _ README r); [exact Hgit | apply lookup_insert_eq]].
  edestruct (commit_run "First Commit!") as (r' & Hcommit & _);
    [| erewrite (bind_returned (commitAsync _)) by exact Hcommit]; [reflexivity |].
  edestruct (push_run GIT_REMOTE_NAME (branch this)) as (o & w' & Hpush & Hcalls & Htree & _).
  unfold push. exists o, w'. split; [exact Hpush |].
  rewrite Hcalls, Htree. simpl. split; [| reflexivity].
  by rewrite <- !app_assoc.
Qed.

(** [C9] [_doInitialCommit] returns at once, with the working copy, the
    repository, the remote and the list of issued commands as they were,
    when README.md exists in the working copy; when it is absent (and the
    working copy is a repository) the file is written and the three
    commands add, commit and push are issued, in this order. *)
Theorem C9_doInitialCommit_guard (this : BaseGit) (w : world) :
  (is_Some (worktree w !! "README.md") -> _doInitialCommit this w = (Returned tt, w))
  /\ (worktree w !! "README.md" = None -> is_Some (dotgit w) ->
      exists o w',
        _doInitialCommit this w = (o, w')
        /\ calls w' = calls w ++ bootstrap_calls this
        /\ worktree w' = <["README.md" := README]> (worktree w)).
Proof.
  split; [apply doInitialCommit_present | apply doInitialCommit_absent].
Qed.

(** ** The bootstrap of [sync] *)




Lemma C9_doInitialCommit_guard_witness :
  _doInitialCommit (constructor Samples.url None) Samples.w_readme
  = (Returned tt, Samples.w_readme).
Proof.
  apply (proj1 (C9_doInitialCommit_guard (constructor Samples.url None) Samples.w_readme)).
  exists "# notes". vm_compute. reflexivity.
Defined.



(** [C8] A [BaseGit] made for the branch develop: [sync] fetches master and
    resets to upstream/master, so the working copy holds the files of
    master, and [push] then names develop, a branch [sync] never brought
    in. *)
Theorem C8_sync_ignores_branch :
  let this := constructor Samples.url (Some "develop") in
  let synced := sync this Samples.w_two_branches in
  let pushed := push this synced.2 in
  branch this = "develop"
  /\ synced.1 = Returned tt
  /\ calls synced.2
     = [Init; AddRemote "upstream" Samples.url;
        Raw ["remote"; "set-url"; "upstream"; Samples.url];
        Fetch "upstream" "master"; Reset ["--hard"; "upstream/master"]]
  /\ worktree synced.2 = {[ "cauldron.json" := "{ v1 }" ]}
  /\ pushed.1 = Thrown "error: src refspec develop does not match any"
  /\ calls pushed.2 = calls synced.2 ++ [Push "upstream" "develop"].
Proof. cbv zeta. repeat apply conj; vm_compute; reflexivity. Qed.

End GitFacts.

(** ** Paths and plugin origins *)

Section UtilsFacts.
Import Js RegExp Grammar Path Utils.

















End UtilsFacts.

(** ** The version order *)

Section ResolverFacts.
Import Js Dependency Resolver.
Local Open Scope list_scope.

Lemma string_ltb_irrefl (s : string) : String.ltb s s = false.
Proof.
  unfold String.ltb. pose proof (String.compare_antisym s s) as H.
  by destruct (String.compare s s).
Qed.

Lemma string_ltb_asym (a b : string) : String.ltb a b = true -> String.ltb b a = false.
Proof.
  unfold String.ltb. rewrite (String.compare_antisym a b).
  by destruct (String.compare b a).
Qed.

Lemma semver_gt_irrefl (x : semver) : semver_gt x x = false.
Proof.
  unfold semver_gt. rewrite !N.compare_refl.
  destruct (prerelease x); [apply string_ltb_irrefl | reflexivity].
Qed.

Lemma semver_gt_asym (x y : semver) : semver_gt x y = true -> semver_gt y x = false.
Proof.
  unfold semver_gt.
  rewrite (N.compare_antisym (major x) (major y)),
    (N.compare_antisym (minor x) (minor y)), (N.compare_antisym (patch x) (patch y)).
  destruct (major x ?= major y)%N; simpl; try done.
  destruct (minor x ?= minor y)%N; simpl; try done.
  destruct (patch x ?= patch y)%N; simpl; try done.
  destruct (prerelease x), (prerelease y); try done.
  apply string_ltb_asym.
Qed.

Lemma version_gt_irrefl (v : string) : version_gt v v = false.
Proof.
  unfold version_gt.
  destruct (parse_semver v); [apply semver_gt_irrefl | apply string_ltb_irrefl].
Qed.

Lemma version_gt_asym (a b : string) : version_gt a b = true -> version_gt b a = false.
Proof.
  unfold version_gt.
  destruct (parse_semver a), (parse_semver b);
    first [apply semver_gt_asym | apply string_ltb_asym].
Qed.

(** No version is higher than itself, and of two versions at most one is
    higher than the other. *)
Lemma higher_irrefl (v : option string) : higher v v = false.
Proof. destruct v; [apply version_gt_irrefl | reflexivity]. Qed.

Lemma higher_asym (a b : option string) : higher a b = true -> higher b a = false.
Proof. destruct a, b; simpl; try done. apply version_gt_asym. Qed.

(** [Dependency.same] with the version ignored compares identities. *)
Lemma same_identity (a b : Dependency) :
  same a b true = true <-> identity_of a = identity_of b.
Proof.
  unfold same, identity_of. rewrite orb_true_l, andb_true_r, andb_true_iff, String.eqb_eq.
  destruct a as [n1 s1 v1], b as [n2 s2 v2]; simpl.
  assert (Hs : strict_eq s1 s2 = true <-> s1 = s2).
  { destruct s1, s2; simpl; rewrite ?String.eqb_eq; split; congruence. }
  rewrite Hs. split; [intros [-> ->]; reflexivity | intros [= -> ->]; done].
Qed.

(** ** retainHighestVersions *)

Lemma find_identity_some (l : list Dependency) (r e : Dependency) :
  find (fun e => bool_decide (identity_of e = identity_of r)) l = Some e ->
  e ∈ l /\ identity_of e = identity_of r.
Proof.
  intros H. apply find_some in H as [Hin Heq].
  split; [by apply list_elem_of_In | by apply bool_decide_eq_true in Heq].
Qed.

Lemma find_identity_none (l : list Dependency) (r : Dependency) :
  find (fun e => bool_decide (identity_of e = identity_of r)) l = None <->
  forall e, e ∈ l -> identity_of e <> identity_of r.
Proof.
  induction l as [|x l IH]; simpl.
  - split; [intros _ e He; by apply elem_of_nil in He | done].
  - destruct (bool_decide (identity_of x = identity_of r)) eqn:Hx.
    + apply bool_decide_eq_true in Hx. split; [done |].
      intros H. destruct (H x); [by left | exact Hx].
    + apply bool_decide_eq_false in Hx. rewrite IH. split.
      * intros H e He. apply elem_of_cons in He as [-> | He]; [exact Hx | by apply H].
      * intros H e He. apply H. by right.
Qed.

(** In a list with unique identities an entry is found by its identity. *)
Lemma find_identity_unique (l : list Dependency) (r e : Dependency) :
  unique l -> e ∈ l -> identity_of e = identity_of r ->
  find (fun e => bool_decide (identity_of e = identity_of r)) l = Some e.
Proof.
  unfold unique. induction l as [|x l IH]; intros Hnd He Heq.
  - by apply elem_of_nil in He.
  - rewrite fmap_cons in Hnd. apply NoDup_cons in Hnd as [Hx Hnd]. simpl.
    apply elem_of_cons in He as [-> | He].
    + by rewrite bool_decide_eq_true_2.
    + rewrite bool_decide_eq_false_2; [by apply IH |].
      intros Hxr. apply Hx. rewrite Hxr, <- Heq.
      apply list_elem_of_fmap. by exists e.
Qed.

Lemma unique_inj (l : list Dependency) (a b : Dependency) :
  unique l -> a ∈ l -> b ∈ l -> identity_of a = identity_of b -> a = b.
Proof.
  intros Hu Ha Hb Heq.
  pose proof (find_identity_unique l b a Hu Ha Heq) as H1.
  pose proof (find_identity_unique l b b Hu Hb eq_refl) as H2.
  congruence.
Qed.

Lemma keep_higher_identity (existing : list Dependency) (r : Dependency) :
  identity_of (keep_higher existing r) = identity_of r.
Proof.
  unfold keep_higher.
  destruct (find _ existing) as [e|] eqn:Hfind; [| reflexivity].
  apply find_identity_some in Hfind as [_ Heq].
  by destruct (higher (version e) (version r)).
Qed.

Lemma retain_identities (resolved existing : list Dependency) :
  identity_of <$> retainHighestVersions resolved existing
  = (identity_of <$> resolved)
    ++ (identity_of <$>
          filter (fun e => identity_of e ∉ identity_of <$> resolved) existing).
Proof.
  unfold retainHighestVersions. rewrite fmap_app. f_equal.
  rewrite <- list_fmap_compose. apply list_fmap_ext.
  intros _ r _. apply keep_higher_identity.
Qed.

Lemma retain_unique (resolved existing : list Dependency) :
  unique resolved -> unique existing ->
  unique (retainHighestVersions resolved existing).
Proof.
  intros Hr He. unfold unique. rewrite retain_identities.
  apply NoDup_app. split; [exact Hr | split].
  - intros i Hi Hin. apply list_elem_of_fmap in Hin as (e & -> & Hin).
    by apply list_elem_of_filter in Hin as [Hnot _].
  - eapply sublist_NoDup; [exact He |].
    apply fmap_sublist, sublist_filter.
Qed.

(** The entry kept for a resolved dependency is not lower than it, nor
    than the existing entry of its identity. *)
Lemma keep_higher_max (existing : list Dependency) (r d' : Dependency) :
  unique existing ->
  d' = r \/ d' ∈ existing ->
  identity_of d' = identity_of r ->
  higher (version d') (version (keep_higher existing r)) = false.
Proof.
  intros He Hd' Hid. unfold keep_higher.
  destruct (find _ existing) as [e|] eqn:Hfind.
  - pose proof (find_identity_some _ _ _ Hfind) as [Hin Heq].
    assert (Hcases : d' = r \/ d' = e).
    { destruct Hd' as [-> | Hd']; [by left | right].
      apply (unique_inj existing); [done .. | congruence]. }
    destruct (higher (version e) (version r)) eqn:Hh.
    + destruct Hcases as [-> | ->]; [by apply higher_asym | apply higher_irrefl].
    + destruct Hcases as [-> | ->]; [apply higher_irrefl | exact Hh].
  - destruct Hd' as [-> | Hd']; [apply higher_irrefl |].
    by destruct (proj1 (find_identity_none existing r) Hfind d' Hd').
Qed.

Lemma filter_none {A} (P : A -> Prop) `{forall a, Decision (P a)} (l : list A) :
  (forall a, a ∈ l -> ~ P a) -> filter P l = [].
Proof.
  induction l as [|a l IH]; intros Hl; [reflexivity |].
  rewrite filter_cons_False by (apply Hl; by left).
  apply IH. intros b Hb. apply Hl. by right.
Qed.

Lemma retain_twice (x : list Dependency) :
  unique x -> retainHighestVersions x x = x.
Proof.
  intros Hx. unfold retainHighestVersions.
  assert (Hkeep : keep_higher x <$> x = x).
  { rewrite <- (list_fmap_id x) at 3. apply list_fmap_ext.
    intros i r Hr. apply list_elem_of_lookup_2 in Hr.
    unfold keep_higher. rewrite (find_identity_unique x r r Hx Hr eq_refl).
    by destruct (higher (version r) (version r)). }
  assert (Hnone : filter (fun e => identity_of e ∉ identity_of <$> x) x = []).
  { apply filter_none. intros e He Hnot. apply Hnot.
    apply list_elem_of_fmap. by exists e. }
  by rewrite Hkeep, Hnone, app_nil_r.
Qed.

(** [C5] On lists that hold every identity at most once,
    [retainHighestVersions] keeps exactly the identities of its two inputs,
    each once; every entry of the result is an entry of an input, and no
    input entry of the same identity has a higher version; an entry whose
    identity only one list holds passes through unchanged; and applied to
    one list twice it gives that list back. *)
Theorem C5_retainHighestVersions (resolved existing : list Dependency) :
  unique resolved -> unique existing ->
  let result := retainHighestVersions resolved existing in
  (forall i, i ∈ identity_of <$> result <-> i ∈ identity_of <$> (resolved ++ existing))
  /\ unique result
  /\ (forall d, d ∈ result ->
        d ∈ resolved ++ existing
        /\ forall d', d' ∈ resolved ++ existing -> identity_of d' = identity_of d ->
             higher (version d') (version d) = false)
  /\ (forall d, d ∈ resolved ->
        (forall e, e ∈ existing -> identity_of e <> identity_of d) -> d ∈ result)
  /\ (forall d, d ∈ existing ->
        (forall r, r ∈ resolved -> identity_of r <> identity_of d) -> d ∈ result)
  /\ retainHighestVersions resolved resolved = resolved
  /\ retainHighestVersions existing existing = existing.
Proof.
  intros Hr He result.
  split; [| split; [by apply retain_unique | split; [| split; [| split]]]].
  - intros i. unfold result. rewrite retain_identities, fmap_app, !elem_of_app.
    split; [intros [Hi | Hi]; [by left | right] | intros [Hi | Hi]; [by left |]].
    + apply list_elem_of_fmap in Hi as (e & -> & Hin).
      apply list_elem_of_filter in Hin as [_ Hin].
      apply list_elem_of_fmap. by exists e.
    + destruct (decide (i ∈ identity_of <$> resolved)) as [Hin | Hnot]; [by left | right].
      apply list_elem_of_fmap in Hi as (e & -> & Hin).
      apply list_elem_of_fmap. exists e. split; [reflexivity |].
      by apply list_elem_of_filter.
  - intros d Hd. unfold result, retainHighestVersions in Hd.
    apply elem_of_app in Hd as [Hd | Hd].
    + apply list_elem_of_fmap in Hd as (r & -> & Hrin). split.
      * unfold keep_higher. destruct (find _ existing) as [e|] eqn:Hfind.
        -- apply find_identity_some in Hfind as [Hin _].
           destruct (higher (version e) (version r));
             apply elem_of_app; [by right | by left].
        -- apply elem_of_app. by left.
      * intros d' Hd' Hid. rewrite keep_higher_identity in Hid.
        apply keep_higher_max; [exact He | | exact Hid].
        apply elem_of_app in Hd' as [Hd' | Hd']; [left | by right].
        by apply (unique_inj resolved).
    + apply list_elem_of_filter in Hd as [Hnot Hin]. split.
      * apply elem_of_app. by right.
      * intros d' Hd' Hid. apply elem_of_app in Hd' as [Hd' | Hd'].
        -- destruct Hnot. rewrite <- Hid. apply list_elem_of_fmap. by exists d'.
        -- rewrite (unique_inj existing d' d He Hd' Hin Hid). apply higher_irrefl.
  - intros d Hd Hnone. unfold result, retainHighestVersions.
    apply elem_of_app. left. apply list_elem_of_fmap. exists d. split; [| exact Hd].
    unfold keep_higher. by rewrite (proj2 (find_identity_none existing d) Hnone).
  - intros d Hd Hnone. unfold result, retainHighestVersions.
    apply elem_of_app. right. apply list_elem_of_filter. split; [| exact Hd].
    intros Hin. apply list_elem_of_fmap in Hin as (r & Hid & Hrin).
    by apply (Hnone r Hrin).
  - split; by apply retain_twice.
Qed.

Example retain_higher_existing :
  retainHighestVersions [mkDependency "A" None (Some "1.0")]
                        [mkDependency "A" None (Some "2.0")]
  = [mkDependency "A" None (Some "2.0")].
Proof. vm_compute. reflexivity. Qed.

Example retain_passes_through :
  retainHighestVersions
    [mkDependency "A" None (Some "1.0"); mkDependency "B" None (Some "1.0")]
    [mkDependency "A" None (Some "1.0")]
  = [mkDependency "A" None (Some "1.0"); mkDependency "B" None (Some "1.0")].
Proof. vm_compute. reflexivity. Qed.

Lemma C5_retainHighestVersions_witness :
  let resolved :=
    [mkDependency "A" None (Some "1.10.0"); mkDependency "B" (Some "acme") None] in
  let existing :=
    [mkDependency "A" None (Some "1.9.0"); mkDependency "C" None (Some "0.1.0")] in
  unique resolved /\ unique existing
  /\ unique (retainHighestVersions resolved existing)
  /\ retainHighestVersions resolved resolved = resolved.
Proof.
  cbv zeta.
  assert (Hr : unique [mkDependency "A" None (Some "1.10.0");
                       mkDependency "B" (Some "acme") None]).
  { unfold unique. apply (bool_decide_unpack _). vm_compute. exact I. }
  assert (He : unique [mkDependency "A" None (Some "1.9.0");
                       mkDependency "C" None (Some "0.1.0")]).
  { unfold unique. apply (bool_decide_unpack _). vm_compute. exact I. }
  split; [exact Hr | split; [exact He |]].
  pose proof (C5_retainHighestVersions _ _ Hr He) as (_ & Hu & _ & _ & _ & Hidem & _).
  split; [exact Hu | exact Hidem].
Defined.

(** [C5] A list that holds an identity twice does not come back. *)
Lemma C5_retainHighestVersions_counterexample :
  let x := [mkDependency "A" None (Some "2.0"); mkDependency "A" None (Some "1.0")] in
  retainHighestVersions x x <> x.
Proof. vm_compute. discriminate. Qed.

(** ** resolveAcrossModules *)

Lemma insert_sorted_perm (v : string) (l : list string) :
  insert_sorted v l ≡ₚ v :: l.
Proof.
  induction l as [|x l IH]; [reflexivity |]. simpl.
  destruct (String.leb v x); [reflexivity |].
  rewrite IH. apply Permutation_swap.
Qed.

Lemma sort_perm (l : list string) : Resolver.sort l ≡ₚ l.
Proof.
  induction l as [|x l IH]; [reflexivity |]. simpl.
  by rewrite insert_sorted_perm, IH.
Qed.

Lemma insert_sorted_hd (a v : string) (l : list string) :
  string_le a v -> HdRel string_le a l -> HdRel string_le a (insert_sorted v l).
Proof.
  intros Hav Hl. destruct l as [|x l]; simpl; [by constructor |].
  destruct (String.leb v x); constructor; [exact Hav |].
  by inversion Hl.
Qed.

Lemma insert_sorted_sorted (v : string) (l : list string) :
  Sorted string_le l -> Sorted string_le (insert_sorted v l).
Proof.
  induction l as [|x l IH]; intros Hs; simpl; [by repeat constructor |].
  destruct (String.leb v x) eqn:Hvx.
  - constructor; [exact Hs | by constructor].
  - inversion Hs as [| ? ? Hs' Hhd]; subst.
    constructor; [by apply IH |].
    apply insert_sorted_hd; [| exact Hhd].
    destruct (String.leb_total x v) as [H | H]; [exact H | congruence].
Qed.

Lemma sort_sorted (l : list string) : Sorted string_le (Resolver.sort l).
Proof.
  induction l as [|x l IH]; simpl; [constructor | by apply insert_sorted_sorted].
Qed.

(** The versions collected for an identity are sorted, distinct, and those
    the modules declare for it; an unset version adds nothing. *)
Lemma distinct_versions_spec (i : string * option string)
    (modules : list ModuleDependencySet) :
  Sorted string_le (distinct_versions i modules)
  /\ NoDup (distinct_versions i modules)
  /\ forall v, v ∈ distinct_versions i modules <->
       exists d, d ∈ declared modules /\ identity_of d = i /\ version d = Some v.
Proof.
  unfold distinct_versions. split; [apply sort_sorted | split].
  - rewrite sort_perm. apply NoDup_remove_dups.
  - intros v. rewrite sort_perm, elem_of_remove_dups, list_elem_of_omap.
    split.
    + intros (d & Hd & Hv). apply list_elem_of_filter in Hd as [Hi Hd]. by exists d.
    + intros (d & Hd & Hi & Hv). exists d. split; [| exact Hv].
      by apply list_elem_of_filter.
Qed.

(** In a list without duplicates one group has a given identity. *)
Lemma filter_key {A B} `{EqDecision B} (key : A -> B) (f : B -> A) (l : list B) (i : B) :
  (forall j, key (f j) = j) -> NoDup l -> i ∈ l ->
  filter (fun x => key x = i) (f <$> l) = [f i].
Proof.
  intros Hkey. induction l as [|j l IH]; intros Hnd Hi.
  - by apply elem_of_nil in Hi.
  - apply NoDup_cons in Hnd as [Hj Hnd]. rewrite fmap_cons.
    apply elem_of_cons in Hi as [<- | Hi].
    + rewrite filter_cons_True by apply Hkey. f_equal.
      apply filter_none. intros x Hx Hk.
      apply list_elem_of_fmap in Hx as (j & -> & Hjl). rewrite Hkey in Hk. congruence.
    + rewrite filter_cons_False; [by apply IH |].
      rewrite Hkey. intros ->. contradiction.
Qed.

Lemma filter_key_omap {A B} `{EqDecision B} (key : A -> B) (f : B -> option A)
    (l : list B) (i : B) :
  (forall j a, f j = Some a -> key a = j) -> NoDup l -> i ∈ l ->
  filter (fun x => key x = i) (omap f l) = option_list (f i).
Proof.
  intros Hkey. induction l as [|j l IH]; intros Hnd Hi.
  - by apply elem_of_nil in Hi.
  - apply NoDup_cons in Hnd as [Hj Hnd].
    assert (Hrest : forall l', i ∉ l' -> filter (fun x => key x = i) (omap f l') = []).
    { intros l' Hl'. apply filter_none. intros x Hx Hk.
      apply list_elem_of_omap in Hx as (j' & Hj' & Hf). apply Hkey in Hf. congruence. }
    change (omap f (j :: l))
      with (match f j with Some y => y :: omap f l | None => omap f l end).
    apply elem_of_cons in Hi as [<- | Hi].
    + destruct (f i) as [a|] eqn:Hf.
      * rewrite filter_cons_True by (by apply Hkey). by rewrite (Hrest l Hj).
      * by apply Hrest.
    + destruct (f j) as [a|] eqn:Hf; [| by apply IH].
      rewrite filter_cons_False; [by apply IH |].
      rewrite (Hkey _ _ Hf). intros ->. contradiction.
Qed.

Lemma omap_fmap {A B C} (f : A -> B) (g : B -> option C) (l : list A) :
  omap g (f <$> l) = omap (fun a => g (f a)) l.
Proof.
  induction l as [|a l IH]; [reflexivity |].
  rewrite fmap_cons.
  change (omap g (f a :: (f <$> l)))
    with (match g (f a) with Some y => y :: omap g (f <$> l) | None => omap g (f <$> l) end).
  by rewrite IH.
Qed.

(** The conflicts that carry a declared identity. *)
Lemma conflicts_of (modules : list ModuleDependencySet) (i : string * option string) :
  i ∈ identity_of <$> declared modules ->
  filter (fun c => identity c = i) (conflicts (resolveAcrossModules modules))
  = if decide (1 < List.length (distinct_versions i modules))
    then [mkConflict i (distinct_versions i modules)] else [].
Proof.
  intros Hi. unfold resolveAcrossModules. cbn [conflicts].
  rewrite omap_fmap. cbn [fst snd].
  rewrite (filter_key_omap identity _ _ i).
  - by destruct (decide _).
  - intros j c Hc. destruct (decide _); [| discriminate]. by injection Hc as <-.
  - apply NoDup_remove_dups.
  - by apply elem_of_remove_dups.
Qed.

(** [C6] For every identity that some module declares: the versions
    collected for it are the distinct declared ones, sorted, versions left
    unset adding none; exactly one resolved Dependency carries the
    identity, without version when none was declared and with the declared
    version when there is one; no Conflict carries the identity when at
    most one version was declared, and exactly one, with the sorted
    distinct versions, when more were.  Two modules that declare A@1.0
    resolve to A@1.0 without conflict; modules that declare A@1.0 and
    A@2.0 give one conflict for A with the versions 1.0 and 2.0. *)
Theorem C6_resolveAcrossModules :
  (forall (modules : list ModuleDependencySet) (i : string * option string),
     i ∈ identity_of <$> declared modules ->
     let vs := distinct_versions i modules in
     let r := resolveAcrossModules modules in
     (Sorted string_le vs /\ NoDup vs
      /\ forall v, v ∈ vs <->
           exists d, d ∈ declared modules /\ identity_of d = i /\ version d = Some v)
     /\ (exists v,
           filter (fun d => identity_of d = i) (resolved r) = [mkDependency i.1 i.2 v]
           /\ (vs = [] -> v = None)
           /\ (forall x, vs = [x] -> v = Some x))
     /\ (List.length vs <= 1 -> filter (fun c => identity c = i) (conflicts r) = [])
     /\ (1 < List.length vs ->
         filter (fun c => identity c = i) (conflicts r) = [mkConflict i vs]))
  /\ resolveAcrossModules
       [mkModule "m1" [mkDependency "A" None (Some "1.0")];
        mkModule "m2" [mkDependency "A" None (Some "1.0")]]
     = mkResolution [mkDependency "A" None (Some "1.0")] []
  /\ resolveAcrossModules
       [mkModule "m1" [mkDependency "A" None (Some "1.0")];
        mkModule "m2" [mkDependency "A" None (Some "2.0")]]
     = mkResolution [mkDependency "A" None (Some "2.0")]
                    [mkConflict ("A", None) ["1.0"; "2.0"]].
Proof.
  split; [| split; vm_compute; reflexivity].
  intros modules i Hi vs r.
  assert (Hin : i ∈ remove_dups (identity_of <$> declared modules))
    by (by apply elem_of_remove_dups).
  pose proof (NoDup_remove_dups (identity_of <$> declared modules)) as Hnd.
  split; [apply distinct_versions_spec | split; [| split]].
  - exists (highest vs). split; [| split].
    + unfold r, resolveAcrossModules. cbn [resolved].
      rewrite <- list_fmap_compose.
      rewrite (filter_key identity_of _ _ i); [reflexivity | | exact Hnd | exact Hin].
      by intros [n s].
    + by intros ->.
    + by intros x ->.
  - intros Hlen. unfold r. rewrite (conflicts_of modules i Hi).
    fold vs. destruct (decide (1 < List.length vs)); [lia | reflexivity].
  - intros Hlen. unfold r. rewrite (conflicts_of modules i Hi).
    fold vs. destruct (decide (1 < List.length vs)); [reflexivity | lia].
Qed.

Lemma C6_resolveAcrossModules_witness :
  let modules :=
    [mkModule "m1" [mkDependency "A" None (Some "1.0"); mkDependency "B" None None];
     mkModule "m2" [mkDependency "A" None (Some "2.0")]] in
  ("A", None) ∈ identity_of <$> declared modules
  /\ filter (fun c => identity c = ("A", None)) (conflicts (resolveAcrossModules modules))
     = [mkConflict ("A", None) (distinct_versions ("A", None) modules)].
Proof.
  cbv zeta.
  assert (Hin : ("A", None) ∈ identity_of <$> declared
            [mkModule "m1" [mkDependency "A" None (Some "1.0"); mkDependency "B" None None];
             mkModule "m2" [mkDependency "A" None (Some "2.0")]]).
  { apply (bool_decide_unpack _). vm_compute. exact I. }
  split; [exact Hin |].
  apply (proj1 C6_resolveAcrossModules _ _ Hin).
  vm_compute. lia.
Defined.

End ResolverFacts.

(** ** More of Dependency *)

Section DependencyMoreFacts.
Import Js RegExp Dependency Grammar.

(** [X1] [fromString] gives a version exactly to the texts that hold an
    at-sign; a text without one is taken whole as the name, without scope
    and version. *)
Theorem fromString_version (str : string) :
  (is_Some (version (fromString str)) <-> has "@" str = true)
  /\ (has "@" str = false -> fromString str = mkDependency str None None).
Proof.
  split; [| apply fromString_bare].
  destruct (has "@" str) eqn:Hat.
  - split; [done | intros _].
    unfold fromString, test.
    destruct (exec SCOPE_NAME_VERSION_RE str) as [m|]; [simpl; eauto |].
    destruct (exec_name_version str Hat) as [gs ->]. simpl. eauto.
  - rewrite (fromString_bare str Hat). simpl. split; [by intros [? ?] | done].
Qed.

Lemma exec_match_here (r : pattern) (s : string) m :
  exec r s = Some m ->
  exists skipped rest, s = skipped +:+ rest /\ match_here r rest = Some m.
Proof.
  induction s as [|x s IH]; simpl.
  - destruct (match_here r "") as [gs|] eqn:H; [| done].
    intros [= ->]. by exists "", "".
  - destruct (match_here r (String x s)) as [gs|] eqn:H.
    + intros [= ->]. by exists "", (String x s).
    + intros Hexec. destruct (IH Hexec) as (skipped & rest & -> & Hrest).
      by exists (String x skipped), rest.
Qed.

(** What a captured dot-plus holds is not empty. *)
Lemma plus_captured (r : pattern) (s : string) m :
  match_here (Plus true :: r) s = Some m ->
  exists t gs, m = t :: gs /\ t <> "".
Proof.
  simpl. unfold plus. destruct s as [|c s]; [done |].
  destruct (dot c); [| done].
  destruct (star (match_here r) s) as [[t gs]|]; [| done].
  simpl. intros [= <-]. by eexists _, _.
Qed.

Lemma lit_plus_captured (c : ascii) (r : pattern) (s : string) m :
  match_here (Lit c :: Plus true :: r) s = Some m ->
  exists t gs, m = t :: gs /\ t <> "".
Proof.
  destruct s as [|x s]; [done |].
  destruct (Ascii.eqb_spec x c) as [-> | Hx].
  - rewrite match_here_lit. apply plus_captured.
  - apply Ascii.eqb_neq in Hx. simpl. by rewrite Hx.
Qed.

(** [X2] [fromString] gives a scope only together with a version, and
    never an empty one: no text parses to a scoped Dependency without a
    version. *)
Theorem fromString_scope (str s : string) :
  scope (fromString str) = Some s ->
  s <> "" /\ is_Some (version (fromString str)) /\ has "/" str = true.
Proof.
  unfold fromString, test.
  destruct (exec SCOPE_NAME_VERSION_RE str) as [m|] eqn:Hexec.
  - simpl. intros [= <-]. split; [| split; [eauto |]].
    + destruct (exec_match_here _ _ _ Hexec) as (skipped & rest & _ & Hm).
      destruct (lit_plus_captured _ _ _ _ Hm) as (t & gs & -> & Ht). exact Ht.
    + destruct (has "/" str) eqn:Hs; [reflexivity |].
      rewrite (exec_needs "/" SCOPE_NAME_VERSION_RE) in Hexec;
        [discriminate | simpl; auto | exact Hs].
  - destruct (exec NAME_VERSION_RE str); [done |].
    destruct (exec SCOPE_NAME_NO_VERSION_RE str); done.
Qed.

Lemma strict_eq_spec (a b : option string) : strict_eq a b = true <-> a = b.
Proof.
  destruct a as [x|], b as [y|]; simpl; try (split; congruence).
  rewrite String.eqb_eq. split; congruence.
Qed.

(** [X3] [same] compares field by field: two Dependencies are the same
    exactly when they have the same name, scope and version, and the same
    with the version ignored exactly when their copies without version
    are equal. *)
Theorem same_spec (depA depB : Dependency) :
  (same depA depB false = true <-> depA = depB)
  /\ (same depA depB true = true <-> withoutVersion depA = withoutVersion depB)
  /\ same depA depB true = same (withoutVersion depA) (withoutVersion depB) false.
Proof.
  destruct depA as [n1 s1 v1], depB as [n2 s2 v2].
  unfold same, withoutVersion, new; simpl.
  rewrite !andb_true_r, !andb_true_iff, !strict_eq_spec, !String.eqb_eq.
  split; [| split; [| reflexivity]]; split;
    first [by intros [[-> ->] ->] | by intros [-> ->] | intros [= -> -> ->] | intros [= -> ->]];
    done.
Qed.

Lemma fromString_version_witness :
  fromString "react-native-code-push" = mkDependency "react-native-code-push" None None.
Proof. apply (proj2 (fromString_version "react-native-code-push")). reflexivity. Defined.

Lemma fromString_scope_witness :
  "foo" <> "" /\ is_Some (version (fromString "@foo/bar@1.0.0"))
  /\ has "/" "@foo/bar@1.0.0" = true.
Proof. apply (fromString_scope "@foo/bar@1.0.0" "foo"). reflexivity. Defined.

Lemma same_spec_witness :
  same (mkDependency "bar" (Some "foo") (Some "1.0.0"))
       (mkDependency "bar" (Some "foo") (Some "2.0.0")) true = true.
Proof.
  apply (proj2 (proj1 (proj2 (same_spec (mkDependency "bar" (Some "foo") (Some "1.0.0"))
                                        (mkDependency "bar" (Some "foo") (Some "2.0.0")))))).
  reflexivity.
Defined.

End DependencyMoreFacts.

(** ** More of BaseGit *)

Section BaseGitFacts.
Import Js RegExp Git BaseGit.
Local Open Scope list_scope.

Ltac step :=
  unfold mbind, M_bind, bind, record, get_repo, get_world, set_repo,
    set_worktree, set_server, ret, mret, M_ret, throw,
    log, with_repo, with_worktree, with_server; simpl.

(** [X4] A directory that is a git repository already, without the
    remote upstream: [sync] does not add the remote, and rejects at its
    first command, with the files and the repository as they were. *)
Theorem sync_without_remote (this : BaseGit) (w : world) (r : repo) :
  dotgit w = Some r -> remotes r !! GIT_REMOTE_NAME = None ->
  sync this w
  = (Thrown "fatal: No such remote 'upstream'",
     log (Raw ["remote"; "set-url"; GIT_REMOTE_NAME; repository this]) w).
Proof.
  intros Hgit Hremote. unfold sync, mbind, M_bind.
  erewrite (bind_returned (existsSync ".git")) by reflexivity.
  simpl. rewrite Hgit. rewrite bool_decide_eq_true_2 by eauto. simpl.
  erewrite (bind_returned (ret tt)) by reflexivity.
  unfold rawAsync. step. rewrite Hgit. simpl. by rewrite Hremote.
Qed.







Lemma sync_without_remote_witness :
  sync (constructor Samples.url None)
       (mkWorld ∅ (Some empty_repo) {[ Samples.url := Reachable ∅ ]} [])
  = (Thrown "fatal: No such remote 'upstream'",
     log (Raw ["remote"; "set-url"; GIT_REMOTE_NAME; Samples.url])
         (mkWorld ∅ (Some empty_repo) {[ Samples.url := Reachable ∅ ]} [])).
Proof.
  apply (sync_without_remote (constructor Samples.url None)
           (mkWorld ∅ (Some empty_repo) {[ Samples.url := Reachable ∅ ]} []) empty_repo);
    reflexivity.
Defined.



End BaseGitFacts.

(** ** splitCamelCaseString and the default package names *)

Section ModuleNamesFacts.
Import Js JsString RegExpTest ModuleNames.
Local Open Scope list_scope.

Lemma every_append (P : ascii -> bool) (a b : string) :
  every P (a +:+ b) = every P a && every P b.
Proof.
  induction a as [|x a IH]; [reflexivity |].
  rewrite append_cons. simpl. by rewrite IH, andb_assoc.
Qed.

Lemma every_toLowerCase (P : ascii -> bool) (s : string) :
  every P (toLowerCase s) = every (fun c => P (lower_char c)) s.
Proof. induction s as [|x s IH]; [reflexivity |]. simpl. by rewrite IH. Qed.

Lemma toLowerCase_append (a b : string) :
  toLowerCase (a +:+ b) = toLowerCase a +:+ toLowerCase b.
Proof.
  induction a as [|x a IH]; [reflexivity |].
  rewrite append_cons. simpl. by rewrite IH.
Qed.

(** Concatenation without separator. *)
Lemma concat_empty_cons (x : string) (l : list string) :
  String.concat "" (x :: l) = x +:+ String.concat "" l.
Proof.
  destruct l as [|y l]; simpl; [by rewrite append_nil_r | reflexivity].
Qed.

Lemma pieces_from_concat (cls : ascii -> bool) (s : string) :
  (pieces_from cls s).1 +:+ String.concat "" (pieces_from cls s).2 = s.
Proof.
  induction s as [|c s IH]; [reflexivity |]. simpl.
  destruct (cls c); cbn [fst snd].
  - rewrite concat_empty_cons. change ("" +:+ ?x) with x.
    rewrite append_cons. by rewrite IH.
  - rewrite append_cons. by rewrite IH.
Qed.

Lemma split_before_concat (cls : ascii -> bool) (s : string) :
  String.concat "" (split_before cls s) = s.
Proof.
  destruct s as [|c s]; [reflexivity |]. unfold split_before.
  rewrite concat_empty_cons, append_cons. by rewrite pieces_from_concat.
Qed.

Lemma pieces_from_nonempty (cls : ascii -> bool) (s : string) :
  Forall (fun piece => piece <> "") (pieces_from cls s).2.
Proof.
  induction s as [|c s IH]; [constructor |]. simpl.
  destruct (cls c); cbn [snd]; [constructor; [discriminate | exact IH] | exact IH].
Qed.

Lemma concat_toLowerCase (l : list string) :
  String.concat "" (toLowerCase <$> l) = toLowerCase (String.concat "" l).
Proof.
  induction l as [|x l IH]; [reflexivity |].
  rewrite fmap_cons, !concat_empty_cons, toLowerCase_append. by rewrite IH.
Qed.

Lemma toLowerCase_empty (s : string) : toLowerCase s = "" -> s = "".
Proof. by destruct s. Qed.

(** No lower case of a character is one of the letters A to Z. *)
Lemma lower_char_not_upper (c : ascii) : is_upper (lower_char c) = false.
Proof.
  destruct c as [[] [] [] [] [] [] [] []]; vm_compute; reflexivity.
Qed.

(** The letters a to z and A to Z have their lower case among a to z. *)
Lemma lower_char_letter (c : ascii) :
  is_lower c || is_upper c = true -> is_lower (lower_char c) = true.
Proof.
  destruct c as [[] [] [] [] [] [] [] []]; vm_compute; (reflexivity || discriminate).
Qed.

(** The pieces of a cut: the open piece holds no character of the class,
    the pieces after it start with one and hold no other. *)
Lemma pieces_from_shape (cls : ascii -> bool) (s : string) :
  every (fun c => negb (cls c)) (pieces_from cls s).1 = true
  /\ Forall (fun piece => exists c t,
               piece = String c t /\ cls c = true
               /\ every (fun c => negb (cls c)) t = true)
            (pieces_from cls s).2.
Proof.
  induction s as [|c s [IH1 IH2]]; [by split |].
  simpl. destruct (cls c) eqn:Hc; simpl.
  - split; [reflexivity |]. constructor; [by eexists _, _ | exact IH2].
  - by rewrite Hc.
Qed.

(** [X8] [splitCamelCaseString] cuts the text before every letter A to Z
    but its first character, and puts each piece in lower case.  The cut
    loses nothing: its pieces put together are the text; every piece
    after the first starts with a letter A to Z, and no piece holds
    another one.  Of the result no piece holds a letter A to Z, and no
    piece is empty, unless the text is empty, which gives one empty
    piece. *)
Theorem splitCamelCaseString_pieces (s : string) :
  (exists first rest,
     String.concat "" (first :: rest) = s
     /\ splitCamelCaseString s = toLowerCase <$> first :: rest
     /\ Forall (fun piece => exists c t, piece = String c t /\ is_upper c = true) rest
     /\ Forall (fun piece =>
                  match piece with
                  | String _ t => every (fun c => negb (is_upper c)) t = true
                  | EmptyString => True
                  end) (first :: rest))
  /\ Forall (fun piece => every (fun c => negb (is_upper c)) piece = true)
            (splitCamelCaseString s)
  /\ (s <> "" -> Forall (fun piece => piece <> "") (splitCamelCaseString s))
  /\ splitCamelCaseString "" = [""].
Proof.
  unfold splitCamelCaseString. split; [| split; [| split; [| reflexivity]]].
  - destruct s as [|c s].
    + exists "", []. repeat split; constructor; done.
    + destruct (pieces_from_shape is_upper s) as [H1 H2].
      exists (String c (pieces_from is_upper s).1), (pieces_from is_upper s).2.
      split; [apply (split_before_concat is_upper (String c s)) |].
      split; [reflexivity |]. split.
      * eapply Forall_impl; [exact H2 |]. intros piece (x & t & -> & Hx & _). eauto.
      * constructor; [exact H1 |].
        eapply Forall_impl; [exact H2 |]. by intros piece (x & t & -> & _ & Ht).
  - apply Forall_fmap, Forall_forall. intros piece _. simpl.
    rewrite every_toLowerCase. induction piece as [|c piece IH]; [reflexivity |].
    simpl. by rewrite lower_char_not_upper, IH.
  - intros Hs. destruct s as [|c s]; [done |].
    apply Forall_fmap. unfold split_before. constructor; [discriminate |].
    eapply Forall_impl; [apply pieces_from_nonempty |].
    intros piece Hp. simpl. by destruct piece.
Qed.

Lemma every_concat (P : ascii -> bool) (sep : string) (l : list string) :
  every P sep = true ->
  Forall (fun t => every P t = true) l ->
  every P (String.concat sep l) = true.
Proof.
  intros Hsep Hl. induction Hl as [|x l Hx Hl IH]; [reflexivity |].
  destruct l as [|y l]; [exact Hx |].
  change (String.concat sep (x :: y :: l)) with (x +:+ sep +:+ String.concat sep (y :: l)).
  by rewrite !every_append, Hx, Hsep, IH.
Qed.

Lemma Forall_list_filter {A} (P : A -> Prop) (f : A -> bool) (l : list A) :
  Forall P l -> Forall P (List.filter f l).
Proof.
  induction 1 as [|x l Hx Hl IH]; simpl; [constructor |].
  destruct (f x); [by constructor | exact IH].
Qed.

Lemma pieces_from_every (Q cls : ascii -> bool) (s : string) :
  every Q s = true ->
  every Q (pieces_from cls s).1 = true
  /\ Forall (fun t => every Q t = true) (pieces_from cls s).2.
Proof.
  induction s as [|c s IH]; [by split |].
  simpl. intros H. apply andb_prop in H as [Hc Hs].
  destruct (IH Hs) as [H1 H2].
  destruct (cls c); cbn [fst snd]; simpl.
  - split; [reflexivity |]. constructor; [| exact H2]. simpl. by rewrite Hc, H1.
  - by rewrite Hc, H1.
Qed.

(** The tokens of a name inherit what holds of the lower case of its
    characters. *)
Lemma tokens_every (P : ascii -> bool) (s : string) :
  every (fun c => P (lower_char c)) s = true ->
  Forall (fun t => every P t = true) (splitCamelCaseString s).
Proof.
  intros H. unfold splitCamelCaseString. apply Forall_fmap.
  assert (Hp : Forall (fun t => every (fun c => P (lower_char c)) t = true)
                      (split_before is_upper s)).
  { destruct s as [|c s]; [by repeat constructor |].
    simpl in H. apply andb_prop in H as [Hc Hs].
    destruct (pieces_from_every _ is_upper s Hs) as [H1 H2].
    unfold split_before. constructor; [| exact H2]. simpl. by rewrite Hc, H1. }
  eapply Forall_impl; [exact Hp |]. intros t Ht. simpl. by rewrite every_toLowerCase.
Qed.

Section Names.
Variable ModuleType : ModuleTypes.

Lemma base_name_every (P : ascii -> bool) (name : string) (type : option string) :
  P "-"%char = true ->
  every (fun c => P (lower_char c)) name = true ->
  every P (getDefaultPackageNameForCamelCaseString ModuleType name type) = true.
Proof.
  intros Hsep Hname. pose proof (tokens_every P name Hname) as Htok.
  unfold getDefaultPackageNameForCamelCaseString.
  repeat match goal with |- context [if ?b then _ else _] => destruct b end;
    apply every_concat; try (by simpl; rewrite Hsep);
    try (by apply Forall_list_filter); exact Htok.
Qed.

Lemma package_name_every (P : ascii -> bool) (name type r : string) :
  P "-"%char = true ->
  every P "miniapp-api-impl-js-native" = true ->
  every (fun c => P (lower_char c)) name = true ->
  getDefaultPackageNameForModule ModuleType name type = Returned r ->
  every P r = true.
Proof.
  intros Hsep Hsuffix Hname. unfold getDefaultPackageNameForModule.
  pose proof (base_name_every P name (Some type) Hsep Hname) as Hbase.
  simpl in Hsuffix. repeat (apply andb_prop in Hsuffix; destruct Hsuffix as [? Hsuffix]).
  repeat match goal with |- context [if ?b then _ else _] => destruct b end;
    intros [= <-] || discriminate; rewrite every_append, Hbase; simpl;
    repeat match goal with H : P _ = true |- _ => rewrite H end; reflexivity.
Qed.

(** [X9] A default package name holds none of the letters A to Z, for
    whatever module name it is made from. *)
Theorem getDefaultPackageNameForModule_lower_case (name type r : string) :
  getDefaultPackageNameForModule ModuleType name type = Returned r ->
  every (fun c => negb (is_upper c)) r = true.
Proof.
  apply package_name_every; [reflexivity | reflexivity |].
  induction name as [|c name IH]; [reflexivity |].
  simpl. by rewrite lower_char_not_upper, IH.
Qed.

End Names.

(** ** isValidElectrodeNativeModuleName *)

Lemma search_bos (r : list node) (s : string) : search (Bos :: r) false s = false.
Proof. induction s as [|c s IH]; [reflexivity |]. simpl. exact IH. Qed.

Lemma test_bos (r : list node) (s : string) : test (Bos :: r) s = matches r true s.
Proof.
  unfold test. destruct s as [|c s]; simpl; [by rewrite orb_false_r |].
  by rewrite search_bos, orb_false_r.
Qed.

(** An iteration up to the end of the text takes every character. *)
Lemma iterate_eos (a : atom) (start : bool) (s : string) :
  iterate a (matches [Eos]) start s = every (accepts a) s.
Proof.
  revert start. induction s as [|c s IH]; intros start; [reflexivity |].
  simpl. by rewrite IH, orb_false_r.
Qed.

(** The pattern of module names: one letter or more, and nothing else. *)
Lemma test_module_name (name : string) :
  test MODULE_NAME_RE name = true
  <-> name <> "" /\ every (fun c => is_lower c || is_upper c) name = true.
Proof.
  unfold MODULE_NAME_RE. rewrite test_bos.
  destruct name as [|c name]; simpl; [split; [discriminate | by intros [? _]] |].
  rewrite iterate_eos, !orb_false_r.
  assert (Heq : every (accepts (Class [(97, 122); (65, 90)])) name
                = every (fun c => is_lower c || is_upper c) name).
  { induction name as [|x name IH]; [reflexivity |]. simpl.
    by rewrite IH, !orb_false_r. }
  rewrite Heq. split; [intros H; split; [discriminate | exact H] | by intros [_ H]].
Qed.

(** [X10] A module name is valid exactly when it is not empty and made of
    the letters a to z and A to Z: the empty name, and a name with a
    digit, a hyphen or a blank, are not valid. *)
Theorem isValidElectrodeNativeModuleName_letters (name : string) :
  (isValidElectrodeNativeModuleName name = true
   <-> name <> "" /\ every (fun c => is_lower c || is_upper c) name = true)
  /\ isValidElectrodeNativeModuleName "" = false
  /\ forall pre c post,
       is_lower c || is_upper c = false ->
       isValidElectrodeNativeModuleName (pre +:+ String c post) = false.
Proof.
  unfold isValidElectrodeNativeModuleName.
  split; [apply test_module_name | split; [reflexivity |]].
  intros pre c post Hc. apply not_true_is_false. intros H.
  apply test_module_name in H as [_ H].
  rewrite every_append in H. simpl in H. rewrite Hc in H.
  by rewrite andb_false_r in H.
Qed.

(** [X11] The default package name of a valid module name is made of the
    letters a to z and the hyphen. *)
Theorem getDefaultPackageNameForModule_valid_name
    (ModuleType : ModuleTypes) (name type r : string) :
  isValidElectrodeNativeModuleName name = true ->
  getDefaultPackageNameForModule ModuleType name type = Returned r ->
  every (fun c => is_lower c || Ascii.eqb c "-") r = true.
Proof.
  intros Hvalid. apply test_module_name in Hvalid as [_ Hletters].
  apply package_name_every; [reflexivity | reflexivity |].
  induction name as [|c name IH]; [reflexivity |].
  simpl in *. apply andb_prop in Hletters as [Hc Hrest].
  by rewrite (lower_char_letter c Hc), (IH Hrest).
Qed.

Lemma getDefaultPackageNameForModule_lower_case_witness :
  every (fun c => negb (is_upper c)) "my-cool-miniapp" = true.
Proof.
  apply (getDefaultPackageNameForModule_lower_case sample_types
           "MyCoolMiniApp" "ern-miniapp" "my-cool-miniapp").
  reflexivity.
Defined.

Lemma getDefaultPackageNameForModule_valid_name_witness :
  every (fun c => is_lower c || Ascii.eqb c "-") "weather-api-impl-native" = true.
Proof.
  apply (getDefaultPackageNameForModule_valid_name sample_types
           "WeatherApiImpl" "ern-native-api-impl" "weather-api-impl-native");
    reflexivity.
Defined.

Lemma splitCamelCaseString_pieces_witness :
  Forall (fun piece => piece <> "") (splitCamelCaseString "MyCoolMiniApp").
Proof.
  apply (proj1 (proj2 (proj2 (splitCamelCaseString_pieces "MyCoolMiniApp")))).
  discriminate.
Defined.

Lemma isValidElectrodeNativeModuleName_letters_witness :
  isValidElectrodeNativeModuleName ("My" +:+ String "-"%char "App") = false.
Proof.
  apply (proj2 (proj2 (isValidElectrodeNativeModuleName_letters "")) "My" "-"%char "App").
  reflexivity.
Defined.

End ModuleNamesFacts.

(** ** Kinds of dependencies *)

Section ApiKindsFacts.
Import Js JsString RegExpTest ModuleNames ApiKinds.
Local Open Scope list_scope.

Lemma iterate_here (a : atom) (k : bool -> string -> bool) (start : bool) (s : string) :
  k start s = true -> iterate a k start s = true.
Proof. intros H. destruct s; simpl; rewrite H; [reflexivity | apply orb_true_r]. Qed.

(** An iteration takes up a run of characters it accepts. *)
Lemma iterate_prefix (a : atom) (k : bool -> string -> bool) (start : bool)
    (pre post : string) :
  every (accepts a) pre = true ->
  (forall b, k b post = true) ->
  iterate a k start (pre +:+ post) = true.
Proof.
  intros Hpre Hk. revert start.
  induction pre as [|c pre IH]; intros start; [by apply iterate_here |].
  simpl in Hpre. apply andb_prop in Hpre as [Hc Hpre].
  rewrite append_cons. simpl. by rewrite Hc, (IH Hpre).
Qed.

(** Literal characters match themselves. *)
Lemma matches_chars (l : string) (r : list node) (start : bool) (t : string) :
  l <> "" -> matches (chars l ++ r) start (l +:+ t) = matches r false t.
Proof.
  intros Hl. revert start. induction l as [|c l IH]; intros start; [done |].
  rewrite append_cons. unfold chars. simpl. rewrite Ascii.eqb_refl. simpl.
  destruct l as [|d l]; [reflexivity |]. by apply IH.
Qed.

Lemma every_dot (s : string) : every (accepts Dot) s = Grammar.one_line s.
Proof. induction s as [|c s IH]; [reflexivity |]. simpl. by rewrite IH. Qed.

(** A name that ends in react-native-, one character or more, and a
    suffix passes the test the suffix belongs to. *)
Lemma test_react_native (suffix p x : string) :
  suffix <> "" ->
  Grammar.one_line p = true -> Grammar.one_line x = true -> x <> "" ->
  test ([Bos; Star Dot] ++ chars "react-native-" ++ [Plus Dot] ++ chars suffix ++ [Eos])
       (p +:+ "react-native-" +:+ x +:+ suffix) = true.
Proof.
  intros Hsuffix Hp Hx Hne. cbn [app]. rewrite test_bos. cbn [matches].
  apply iterate_prefix; [by rewrite every_dot |]. intros b.
  rewrite matches_chars by discriminate.
  destruct x as [|c x]; [done |]. simpl in Hx. apply andb_prop in Hx as [Hc Hx].
  rewrite append_cons. cbn [app matches accepts]. rewrite Hc. simpl.
  apply iterate_prefix; [by rewrite every_dot |]. intros b'.
  rewrite <- (append_nil_r suffix) at 2.
  by rewrite matches_chars.
Qed.

Section Yarn.
Variable ModuleType : ModuleTypes.
Variable State : Type.
Variable PackagePath : Type.
Variable PackagePath_fromString : string -> outcome PackagePath.
Variable PackagePath_toString : PackagePath -> string.
Variable yarn_info : PackagePath -> string -> State -> outcome (option DepInfo) * State.

Abbreviation isDependencyApi :=
  (isDependencyApi ModuleType State PackagePath PackagePath_fromString yarn_info).
Abbreviation isDependencyApiImpl :=
  (isDependencyApiImpl ModuleType State PackagePath PackagePath_fromString
     PackagePath_toString yarn_info).
Abbreviation isDependencyJsApiImpl :=
  (isDependencyJsApiImpl ModuleType State PackagePath PackagePath_fromString
     PackagePath_toString yarn_info).
Abbreviation isDependencyApiOrApiImpl :=
  (isDependencyApiOrApiImpl ModuleType State PackagePath PackagePath_fromString
     PackagePath_toString yarn_info).
Abbreviation extractJsApiImplementations :=
  (extractJsApiImplementations ModuleType State PackagePath PackagePath_fromString
     PackagePath_toString yarn_info).
Abbreviation info_of := (info_of State PackagePath PackagePath_fromString yarn_info).

(** Asking yarn and judging its answer never rejects: a rejection, and a
    null answer, give [false]. *)
Lemma asked_settles (name : string) (test : option string -> bool) (st : State) :
  exists a st',
    try_catch State
      (await State (info_of name) (fun depInfo => judge State depInfo test))
      (fun e => resolve State (Bool false)) st = (Returned a, st')
    /\ ((forall info, (info_of name st).1 <> Returned (Some info)) -> a = Bool false).
Proof.
  unfold try_catch, await.
  destruct (info_of name st) as [[[info|] | e] st'] eqn:Hinfo; simpl.
  - unfold judge. destruct (strict_eq (ApiKinds.type info) (Some "error")).
    + eexists _, _. split; [reflexivity |]. by intros.
    + destruct (data info); (eexists _, _; split; [reflexivity |]);
        intros H; by destruct (H info).
  - eexists _, _. split; [reflexivity | by intros].
  - eexists _, _. split; [reflexivity | by intros].
Qed.

Lemma isDependencyApi_returns (name : string) (st : State) :
  exists a st', isDependencyApi name st = (Returned a, st').
Proof.
  unfold ApiKinds.isDependencyApi.
  destruct (test API_NAME_RE name); [by eexists _, _ |].
  destruct (asked_settles name (fun mt => strict_eq (Some (API ModuleType)) mt) st)
    as (a & st' & H & _). by exists a, st'.
Qed.

Lemma isDependencyApiImpl_returns dep force type (st : State) :
  exists a st', isDependencyApiImpl dep force type st = (Returned a, st').
Proof.
  unfold ApiKinds.isDependencyApiImpl.
  match goal with |- context [if ?b then _ else _] => destruct b end;
    [by eexists _, _ |].
  match goal with |- context [try_catch _ (await _ (ApiKinds.info_of _ _ _ _ ?n) (fun d => judge _ d ?t))] =>
    destruct (asked_settles n t st) as (a & st' & H & _) end.
  by exists a, st'.
Qed.

Lemma isDependencyApiOrApiImpl_returns (name : string) (st : State) :
  exists a st', isDependencyApiOrApiImpl name st = (Returned a, st').
Proof.
  unfold ApiKinds.isDependencyApiOrApiImpl, await.
  destruct (isDependencyApi_returns name st) as (a & st1 & ->).
  destruct (truthy_answer a); simpl.
  - by eexists _, _.
  - destruct (isDependencyApiImpl_returns (inl name) false None st1) as (b & st2 & ->).
    by eexists _, _.
Qed.

(** [X12] The checks never reject, whatever [yarn.info] and
    [PackagePath.fromString] do: a rejection is caught and answered with
    [false]. *)
Theorem isDependencyApi_settles (name : string) (st : State) :
  (exists a st', isDependencyApi name st = (Returned a, st'))
  /\ (forall dep force type,
        exists a st', isDependencyApiImpl dep force type st = (Returned a, st'))
  /\ (exists a st', isDependencyApiOrApiImpl name st = (Returned a, st')).
Proof.
  split; [apply isDependencyApi_returns | split].
  - intros dep force type. apply isDependencyApiImpl_returns.
  - apply isDependencyApiOrApiImpl_returns.
Qed.

Abbreviation nothing_known :=
  (nothing_known State PackagePath PackagePath_fromString yarn_info).

Lemma asked_nothing_known (name : string) (test : option string -> bool) (st : State) :
  nothing_known name st ->
  (try_catch State
     (await State (info_of name) (fun depInfo => judge State depInfo test))
     (fun e => resolve State (Bool false)) st).1 = Returned (Bool false).
Proof.
  unfold nothing_known, try_catch, await.
  destruct (info_of name st) as [[[info|] | e] st']; simpl; try done.
  intros ->. reflexivity.
Qed.

Lemma api_default_name (p x : string) (st : State) :
  Grammar.one_line p = true -> Grammar.one_line x = true -> x <> "" ->
  isDependencyApi (p +:+ "react-native-" +:+ x +:+ "-api") st
  = (Returned (Bool true), st).
Proof.
  intros Hp Hx Hne. unfold ApiKinds.isDependencyApi, API_NAME_RE.
  by rewrite (test_react_native "-api").
Qed.

Lemma api_impl_default_name (p x : string) (st : State) :
  Grammar.one_line p = true -> Grammar.one_line x = true -> x <> "" ->
  isDependencyApiImpl (inl (p +:+ "react-native-" +:+ x +:+ "-api-impl")) false None st
  = (Returned (Bool true), st).
Proof.
  intros Hp Hx Hne. unfold ApiKinds.isDependencyApiImpl, API_IMPL_NAME_RE.
  by rewrite (test_react_native "-api-impl").
Qed.

(** [X13] Names of the default forms are settled without [yarn.info]:
    the answer is [true] and the state is the one before the call. *)
Theorem isDependencyApi_default_name (p x : string) (st : State) :
  Grammar.one_line p = true -> Grammar.one_line x = true -> x <> "" ->
  isDependencyApi (p +:+ "react-native-" +:+ x +:+ "-api") st
    = (Returned (Bool true), st)
  /\ isDependencyApiImpl (inl (p +:+ "react-native-" +:+ x +:+ "-api-impl")) false None st
    = (Returned (Bool true), st).
Proof.
  intros Hp Hx Hne. split; [by apply api_default_name | by apply api_impl_default_name].
Qed.

(** [X14] [isDependencyApiOrApiImpl] holds of every name of a default
    form, whatever [yarn.info] does. *)
Theorem isDependencyApiOrApiImpl_default_name (p x suffix : string) (st : State) :
  Grammar.one_line p = true -> Grammar.one_line x = true -> x <> "" ->
  suffix = "-api" \/ suffix = "-api-impl" ->
  exists a st',
    isDependencyApiOrApiImpl (p +:+ "react-native-" +:+ x +:+ suffix) st
      = (Returned a, st')
    /\ truthy_answer a = true.
Proof.
  intros Hp Hx Hne Hsuffix.
  pose proof (api_default_name p x st Hp Hx Hne) as Hapi.
  unfold ApiKinds.isDependencyApiOrApiImpl, await.
  destruct Hsuffix as [-> | ->].
  - rewrite Hapi. simpl. by eexists _, _.
  - destruct (isDependencyApi_returns
      (p +:+ "react-native-" +:+ x +:+ "-api-impl") st) as (a & st' & ->).
    destruct (truthy_answer a) eqn:Ha; simpl.
    + unfold resolve, or_answer. rewrite Ha. by eexists _, _.
    + rewrite (api_impl_default_name p x st' Hp Hx Hne).
      unfold resolve, or_answer. rewrite Ha. by eexists _, _.
Qed.

(** [X15] When [yarn.info] gives nothing to judge, the name decides
    [isDependencyApi], and the forced checks answer [false] whatever the
    name is. *)
Theorem isDependencyApi_nothing_known (name : string) (st : State) :
  nothing_known name st ->
  (isDependencyApi name st).1 = Returned (Bool (test API_NAME_RE name))
  /\ (isDependencyJsApiImpl (inl name) st).1 = Returned (Bool false)
  /\ (ApiKinds.isDependencyNativeApiImpl ModuleType State PackagePath
        PackagePath_fromString PackagePath_toString yarn_info (inl name) st).1
     = Returned (Bool false).
Proof.
  intros H. split; [| split].
  - unfold ApiKinds.isDependencyApi.
    destruct (test API_NAME_RE name); [reflexivity |].
    by apply asked_nothing_known.
  - unfold ApiKinds.isDependencyJsApiImpl, ApiKinds.isDependencyApiImpl.
    rewrite andb_false_r. simpl. by apply asked_nothing_known.
  - unfold ApiKinds.isDependencyNativeApiImpl, ApiKinds.isDependencyApiImpl.
    rewrite andb_false_r. simpl. by apply asked_nothing_known.
Qed.

(** [X16] [extractJsApiImplementations] never rejects, and what it
    returns is a sublist of the plugins, in their order. *)
Theorem extractJsApiImplementations_sublist (plugins : list PackagePath) (st : State) :
  exists found st',
    extractJsApiImplementations plugins st = (Returned found, st')
    /\ sublist found plugins.
Proof.
  revert st. induction plugins as [|dependency rest IH]; intros st.
  - exists [], st. by split.
  - simpl. unfold await at 1.
    destruct (isDependencyApiImpl_returns (inr dependency) true
                (Some (JS_API_IMPL ModuleType)) st) as (a & st1 & Ha).
    unfold ApiKinds.isDependencyJsApiImpl. rewrite Ha.
    unfold await. destruct (IH st1) as (found & st2 & -> & Hsub).
    unfold resolve. eexists _, _. split; [reflexivity |].
    destruct (truthy_answer a); by constructor.
Qed.

End Yarn.

Lemma isDependencyApi_default_name_witness :
  isDependencyApi sample_types unit string Returned offline
    ("@scope/" +:+ "react-native-" +:+ "weather" +:+ "-api") tt
    = (Returned (Bool true), tt)
  /\ isDependencyApiImpl sample_types unit string Returned id offline
       (inl ("@scope/" +:+ "react-native-" +:+ "weather" +:+ "-api-impl")) false None tt
    = (Returned (Bool true), tt).
Proof.
  apply (isDependencyApi_default_name sample_types unit string Returned id offline
           "@scope/" "weather" tt); [reflexivity | reflexivity | discriminate].
Defined.

Lemma isDependencyApiOrApiImpl_default_name_witness :
  exists a st',
    isDependencyApiOrApiImpl sample_types unit string Returned id offline
      ("" +:+ "react-native-" +:+ "weather" +:+ "-api-impl") tt = (Returned a, st')
    /\ truthy_answer a = true.
Proof.
  apply (isDependencyApiOrApiImpl_default_name sample_types unit string Returned id
           offline "" "weather" "-api-impl" tt);
    [reflexivity | reflexivity | discriminate | by right].
Defined.

Lemma isDependencyApi_nothing_known_witness :
  (isDependencyApi sample_types unit string Returned offline
     "react-native-weather-api-impl" tt).1
    = Returned (Bool (test API_NAME_RE "react-native-weather-api-impl"))
  /\ (isDependencyJsApiImpl sample_types unit string Returned id offline
        (inl "react-native-weather-api-impl") tt).1 = Returned (Bool false)
  /\ (isDependencyNativeApiImpl sample_types unit string Returned id offline
        (inl "react-native-weather-api-impl") tt).1 = Returned (Bool false).
Proof.
  apply (isDependencyApi_nothing_known sample_types unit string Returned id offline
           "react-native-weather-api-impl" tt).
  exact I.
Defined.

End ApiKindsFacts.
